(** * Form-submission backend: contact messages and job applications

    A shallow embedding of the Express server (routes, multer upload
    configuration, error middleware) and of the two mongoose schemas, with
    the properties of the submission and listing contract proved about it. *)

From Stdlib Require Import ZArith NArith Lia List Ascii String.
From stdpp Require Import base tactics option list strings gmap sorting pretty.

Local Open Scope string_scope.
Local Open Scope list_scope.

#[local] Arguments String.append _ _ : simpl nomatch.

(** ** Regular expressions

    The email pattern is used through [RegExp.prototype.test] with both
    anchors and without back-references or look-around, so whether it
    matches is membership of the whole string in the pattern's language.
    Characters are modelled as [ascii]; classes as boolean predicates. *)

Inductive regex : Type :=
| Void : regex
| Eps : regex
| Class : (ascii → bool) → regex
| Cat : regex → regex → regex
| Alt : regex → regex → regex
| Star : regex → regex.

Fixpoint nullable (r : regex) : bool :=
  match r with
  | Void => false
  | Eps => true
  | Class _ => false
  | Cat r1 r2 => nullable r1 && nullable r2
  | Alt r1 r2 => nullable r1 || nullable r2
  | Star _ => true
  end.

(** Concatenation and alternation that drop dead branches, so that repeated
    derivation stays small. *)
Definition cat (r1 r2 : regex) : regex :=
  match r1, r2 with
  | Void, _ => Void
  | _, Void => Void
  | Eps, _ => r2
  | _, _ => Cat r1 r2
  end.

Definition alt (r1 r2 : regex) : regex :=
  match r1, r2 with
  | Void, _ => r2
  | _, Void => r1
  | _, _ => Alt r1 r2
  end.

Fixpoint deriv (c : ascii) (r : regex) : regex :=
  match r with
  | Void => Void
  | Eps => Void
  | Class p => if p c then Eps else Void
  | Cat r1 r2 =>
      if nullable r1 then alt (cat (deriv c r1) r2) (deriv c r2)
      else cat (deriv c r1) r2
  | Alt r1 r2 => alt (deriv c r1) (deriv c r2)
  | Star r1 => cat (deriv c r1) (Star r1)
  end.

Fixpoint matches (r : regex) (w : list ascii) : bool :=
  match w with
  | [] => nullable r
  | c :: w' => matches (deriv c r) w'
  end.

(** [regex.test(s)] for an anchored pattern. *)
Definition regex_test (r : regex) (s : string) : bool :=
  matches r (list_ascii_of_string s).

(** The language of a pattern, as the reference semantics of [matches]. *)
Inductive lang : regex → list ascii → Prop :=
| lang_eps : lang Eps []
| lang_class p c : p c = true → lang (Class p) [c]
| lang_cat r1 r2 u v : lang r1 u → lang r2 v → lang (Cat r1 r2) (u ++ v)
| lang_alt_l r1 r2 u : lang r1 u → lang (Alt r1 r2) u
| lang_alt_r r1 r2 u : lang r2 u → lang (Alt r1 r2) u
| lang_star_nil r : lang (Star r) []
| lang_star_app r u v : lang r u → lang (Star r) v → lang (Star r) (u ++ v).

(** Pattern combinators: [r+], [r?]. *)
Definition plus (r : regex) : regex := Cat r (Star r).
Definition opt (r : regex) : regex := Alt Eps r.

(** Character classes of the email pattern. *)
Definition in_range (lo hi : nat) (c : ascii) : bool :=
  (lo <=? nat_of_ascii c)%nat && (nat_of_ascii c <=? hi)%nat.

(** [\w] is [A-Za-z0-9_]. *)
Definition is_word (c : ascii) : bool :=
  in_range 65 90 c || in_range 97 122 c || in_range 48 57 c
  || Ascii.eqb c "_".

Definition is_dot (c : ascii) : bool := Ascii.eqb c ".".
Definition is_at (c : ascii) : bool := Ascii.eqb c "@".
(** [[\.-]] *)
Definition is_dot_or_dash (c : ascii) : bool :=
  Ascii.eqb c "." || Ascii.eqb c "-".

(** [\w+([\.-]?\w+)*] *)
Definition re_atoms : regex :=
  Cat (plus (Class is_word))
      (Star (Cat (opt (Class is_dot_or_dash)) (plus (Class is_word)))).

(** [\.\w{2,3}] *)
Definition re_tld : regex :=
  Cat (Class is_dot)
      (Cat (Class is_word) (Cat (Class is_word) (opt (Class is_word)))).

(** [/^\w+([\.-]?\w+)*@\w+([\.-]?\w+)*(\.\w{2,3})+$/], the [match] pattern of
    the [email] path in both schemas. *)
Definition email_re : regex :=
  Cat re_atoms (Cat (Class is_at) (Cat re_atoms (plus re_tld))).





(** ** Mongoose schemas

    A schema path of type [String] with a [required] rule and an optional
    [match] rule. A field of a document is [Some s] for a text value and
    [None] when the submission does not carry it ([undefined] or [null]);
    form fields are text, other JSON values are not modelled. *)

Record SchemaPath (D : Type) : Type := mkPath {
  sp_path : string;
  sp_get : D → option string;
  sp_required : string;
  sp_match : option (regex * string)
}.
Arguments mkPath {D} _ _ _ _.
Arguments sp_path {D} _.
Arguments sp_get {D} _.
Arguments sp_required {D} _.
Arguments sp_match {D} _.

(** The [required] validator of a [String] path: the value is a string of
    non-zero length. *)
Definition check_required (v : option string) : bool :=
  match v with
  | Some s => negb (String.eqb s "")
  | None => false
  end.

(** A field the submission leaves out or leaves empty. *)
Definition missing (v : option string) : Prop := v = None ∨ v = Some "".

(** The [match] validator: absent and empty values pass, anything else is
    tested against the pattern. *)
Definition check_match (re : regex) (v : option string) : bool :=
  match v with
  | None => true
  | Some s => if String.eqb s "" then true else regex_test re s
  end.

(** Validators of a path run in order, [required] first; the first one that
    fails gives the path's error message. *)
Definition validate_path {D} (p : SchemaPath D) (doc : D) : option string :=
  let v := sp_get p doc in
  if negb (check_required v) then Some (sp_required p)
  else
    match sp_match p with
    | Some (re, msg) => if check_match re v then None else Some msg
    | None => None
    end.

(** [error.errors]: one entry per violated path, in schema order. *)
Fixpoint validate {D} (schema : list (SchemaPath D)) (doc : D)
  : list (string * string) :=
  match schema with
  | [] => []
  | p :: ps =>
      match validate_path p doc with
      | Some msg => (sp_path p, msg) :: validate ps doc
      | None => validate ps doc
      end
  end.

Definition email_message : string := "Please enter a valid email address".

Module Contact.
Record t : Type := mk {
  name : option string;
  email : option string;
  message : option string;
  createdAt : N
}.

Definition name_path : SchemaPath t :=
  mkPath "name" name "Name is required" None.
Definition email_path : SchemaPath t :=
  mkPath "email" email "Email is required" (Some (email_re, email_message)).
Definition message_path : SchemaPath t :=
  mkPath "message" message "Message is required" None.

Definition contactSchema : list (SchemaPath t) :=
  [name_path; email_path; message_path].
End Contact.

Module Application.
Record t : Type := mk {
  name : option string;
  email : option string;
  qualification : option string;
  specialization : option string;
  resumeUrl : option string;
  createdAt : N
}.

Definition name_path : SchemaPath t :=
  mkPath "name" name "Name is required" None.
Definition email_path : SchemaPath t :=
  mkPath "email" email "Email is required" (Some (email_re, email_message)).
Definition qualification_path : SchemaPath t :=
  mkPath "qualification" qualification "Qualification is required" None.
Definition specialization_path : SchemaPath t :=
  mkPath "specialization" specialization "Specialization is required" None.
Definition resumeUrl_path : SchemaPath t :=
  mkPath "resumeUrl" resumeUrl "Resume URL is required" None.

Definition applicationSchema : list (SchemaPath t) :=
  [name_path; email_path; qualification_path; specialization_path;
   resumeUrl_path].
End Application.

(** ** Strings: [Array.prototype.join], [path.extname], number printing *)

Fixpoint join (sep : string) (xs : list string) : string :=
  match xs with
  | [] => ""
  | [x] => x
  | x :: rest => x +:+ sep +:+ join sep rest
  end.

(** [s2] occurs in [s1] ([s1.includes(s2)]). *)
Definition includes (s1 s2 : string) : Prop :=
  ∃ pre post, s1 = pre +:+ s2 +:+ post.

(** State of the backwards scan of Node's POSIX [path.extname]. *)
Record ext_scan : Type := mkScan {
  startDot : Z;
  startPart : Z;
  end_ : Z;
  matchedSlash : bool;
  preDotState : Z
}.

Definition scan_char (code : ascii) (i : Z) (st : ext_scan) : ext_scan :=
  let st1 :=
    if (end_ st =? -1)%Z
    then mkScan (startDot st) (startPart st) (i + 1) false (preDotState st)
    else st in
  if Ascii.eqb code "."
  then
    if (startDot st1 =? -1)%Z
    then mkScan i (startPart st1) (end_ st1) (matchedSlash st1) (preDotState st1)
    else if negb (preDotState st1 =? 1)%Z
    then mkScan (startDot st1) (startPart st1) (end_ st1) (matchedSlash st1) 1
    else st1
  else
    if negb (startDot st1 =? -1)%Z
    then mkScan (startDot st1) (startPart st1) (end_ st1) (matchedSlash st1) (-1)
    else st1.

(** The loop [for (i = path.length - 1; i >= 0; --i)], over the characters in
    reverse order. *)
Fixpoint extname_scan (rchars : list ascii) (i : Z) (st : ext_scan) : ext_scan :=
  match rchars with
  | [] => st
  | code :: rest =>
      if Ascii.eqb code "/"
      then
        if negb (matchedSlash st)
        then mkScan (startDot st) (i + 1) (end_ st) (matchedSlash st) (preDotState st)
        else extname_scan rest (i - 1) st
      else extname_scan rest (i - 1) (scan_char code i st)
  end.

(** What the backwards scan knows at index [i]: the end of the last path
    component, once set, lies after [i]; the first dot seen, once set, is a
    dot of the path and lies before that end. *)
Definition scan_inv (chars : list ascii) (i : Z) (st : ext_scan) : Prop :=
  (end_ st = -1 ∨ i < end_ st)%Z
  ∧ (startDot st = -1
     ∨ (0 ≤ startDot st
        ∧ chars !! Z.to_nat (startDot st) = Some "."%char
        ∧ startDot st < end_ st))%Z.

Definition slice (chars : list ascii) (from to : Z) : list ascii :=
  take (Z.to_nat (to - from)) (drop (Z.to_nat from) chars).

Definition extname_chars (chars : list ascii) : list ascii :=
  let st := extname_scan (rev chars) (Z.of_nat (length chars) - 1)
                         (mkScan (-1) 0 (-1) true 0) in
  if (startDot st =? -1)%Z || (end_ st =? -1)%Z || (preDotState st =? 0)%Z
     || ((preDotState st =? 1)%Z && (startDot st =? end_ st - 1)%Z
         && (startDot st =? startPart st + 1)%Z)
  then []
  else slice chars (startDot st) (end_ st).

Definition extname (path : string) : string :=
  string_of_list_ascii (extname_chars (list_ascii_of_string path)).

(** Decimal rendering of a non-negative integer, as [Number] to [String]
    conversion gives for integers below 1e21. *)
Definition number_to_string (n : N) : string := pretty n.


(** Shapes of the parts of a stored file name: decimal digits only; empty or
    starting with a dot; free of path separators. *)
Definition is_digit (c : ascii) : bool := in_range 48 57 c.

Definition all_digits (s : string) : Prop :=
  forallb is_digit (list_ascii_of_string s) = true.

Definition starts_without_digit (r : list ascii) : Prop :=
  match r with
  | [] => True
  | c :: _ => is_digit c = false
  end.

Definition extension_like (e : string) : Prop :=
  e = "" ∨ ∃ rest, e = String "." rest.

Definition no_slash (s : string) : Prop :=
  forallb (λ c, negb (Ascii.eqb c "/")) (list_ascii_of_string s) = true.

(** ** Errors, responses, the world

    The handlers tell errors apart by inspecting them ([error.name ===
    'ValidationError'], [err instanceof multer.MulterError], [err.code]).
    [OtherError] is any error that is neither of the two; [msg] is the
    error's [message]. *)

Inductive error : Type :=
| ValidationError (msg : string) (errors : list (string * string))
| MulterError (code : string)
| OtherError (msg : string).

(** The envelope [{success, message, data}] with the HTTP status. *)
Record Response : Type := mkResponse {
  status : nat;
  success : bool;
  message : option string;
  data : option (list Application.t)
}.

(** The two collections of the document store and the upload directory
    (path to file content). *)
Record World : Type := mkWorld {
  contacts : list Contact.t;
  applications : list Application.t;
  uploads : gmap string string
}.

Definition empty_world : World := mkWorld [] [] ∅.

(** What a request observes of its environment: the clock at the time the
    upload is named and at the time the document is built, the rounded random
    draw [Math.round(Math.random() * 1E9)], whether the store operation of
    the request is rejected (with the error's message), and whether
    [fs.unlink] reports an error. *)
Record Env : Type := mkEnv {
  upload_now : N;
  random_draw : N;
  created_now : N;
  store_fault : option string;
  unlink_fault : bool
}.

Inductive Event : Type :=
| FileWritten (path : string)
| UnlinkStarted (path : string)
| FileUnlinked (path : string)
| UnlinkFailed (path : string)
| StoreWrite (collection : string)
| StoreInserted (collection : string)
| StoreQuery (collection : string)
| Responded (code : nat).

(** Computations of a request: they read and change the world, log what they
    do to the store and the disk in order, and either throw or return. *)
Definition M (A : Type) : Type := World → (error + A) * World * list Event.

Definition ret {A} (a : A) : M A := λ w, (inr a, w, []).

Definition throw {A} (e : error) : M A := λ w, (inl e, w, []).

Definition bind {A B} (m : M A) (k : A → M B) : M B := λ w,
  match m w with
  | (inl e, w1, log1) => (inl e, w1, log1)
  | (inr a, w1, log1) =>
      match k a w1 with
      | (r, w2, log2) => (r, w2, log1 ++ log2)
      end
  end.

(** [try { body } catch (error) { handler }] *)
Definition try_catch {A} (body : M A) (handler : error → M A) : M A := λ w,
  match body w with
  | (inl e, w1, log1) =>
      match handler e w1 with
      | (r, w2, log2) => (r, w2, log1 ++ log2)
      end
  | (inr a, w1, log1) => (inr a, w1, log1)
  end.

Definition emit (ev : Event) : M unit := λ w, (inr tt, w, [ev]).
Definition modify (f : World → World) : M unit := λ w, (inr tt, f w, []).
Definition gets {A} (f : World → A) : M A := λ w, (inr (f w), w, []).

#[global] Instance M_ret : MRet M := @ret.
#[global] Instance M_bind : MBind M := λ A B k m, bind m k.

(** [res.status(code).json({success, message})] *)
Definition respond (code : nat) (ok : bool) (msg : string) : M Response :=
  emit (Responded code);; mret (mkResponse code ok (Some msg) None).

(** [messages.join('. ')] over [Object.values(error.errors)] *)
Definition joined_messages (errors : list (string * string)) : string :=
  join ". " (map snd errors).

(** Message of a mongoose validation error. *)
Definition validation_message (model : string) (errors : list (string * string))
  : string :=
  model +:+ " validation failed: "
  +:+ join ", " (map (λ e, fst e +:+ ": " +:+ snd e) errors).

(** [doc.save()]: validation runs first; only a valid document reaches the
    store, where the write may still be rejected. *)
Definition save {D} (model : string) (schema : list (SchemaPath D))
    (insert : D → World → World) (env : Env) (doc : D) : M unit :=
  match validate schema doc with
  | [] =>
      emit (StoreWrite model);;
      match store_fault env with
      | Some msg => throw (OtherError msg)
      | None => modify (insert doc);; emit (StoreInserted model)
      end
  | errs => throw (ValidationError (validation_message model errs) errs)
  end.

Definition insert_contact (doc : Contact.t) (w : World) : World :=
  mkWorld (contacts w ++ [doc]) (applications w) (uploads w).

Definition insert_application (doc : Application.t) (w : World) : World :=
  mkWorld (contacts w) (applications w ++ [doc]) (uploads w).

(** ** Contact route *)

Record ContactBody : Type := mkContactBody {
  cb_name : option string;
  cb_email : option string;
  cb_message : option string
}.

Definition contact_ack : string := "Thank you! We will connect shortly.".
Definition contact_failure : string := "Error submitting form. Please try again.".

(** [new Contact({ name, email, message })]; [createdAt] takes its default,
    the current time. *)
Definition newContact (env : Env) (body : ContactBody) : Contact.t :=
  Contact.mk (cb_name body) (cb_email body) (cb_message body) (created_now env).

(** [const { ... } = req.body]: [req.body] is an object when a body parser
    filled it (the JSON parser, multer for a multipart form, or Express 4,
    which starts every request with an empty object) and [undefined]
    otherwise (Express 5), in which case destructuring it throws. *)
Definition destructure {B} (body : option B) : M B :=
  match body with
  | Some b => mret b
  | None =>
      throw (OtherError
        "Cannot destructure property 'name' of 'req.body' as it is undefined.")
  end.

(** The handler of [POST /api/contact]; [body] is [req.body]. *)
Definition post_contact (env : Env) (body : option ContactBody) : M Response :=
  try_catch
    (fields ← destructure body;
     save "Contact" Contact.contactSchema insert_contact env
          (newContact env fields);;
     respond 201 true contact_ack)
    (λ error,
       match error with
       | ValidationError _ errors => respond 400 false (joined_messages errors)
       | _ => respond 500 false contact_failure
       end).

(** The error-handling middleware. *)
Definition error_middleware (err : error) : M Response :=
  match err with
  | MulterError code =>
      if String.eqb code "LIMIT_FILE_SIZE"
      then respond 400 false "File is too large. Maximum size is 5MB"
      else respond 400 false "Error uploading file"
  | ValidationError msg _ | OtherError msg =>
      respond 500 false (if String.eqb msg "" then "Something broke!" else msg)
  end.

(** A request to [POST /api/contact] after [express.json()]: the body
    parser rejected the payload (its error goes to the error middleware), or
    the body reaches the handler as an object, or no parser applied and the
    handler finds [req.body] undefined. *)
Inductive ContactRequest : Type :=
| MalformedJson (parser_message : string)
| JsonBody (body : ContactBody)
| NoBody.

Definition contact_route (env : Env) (req : ContactRequest) : M Response :=
  match req with
  | MalformedJson m => error_middleware (OtherError m)
  | JsonBody body => post_contact env (Some body)
  | NoBody => post_contact env None
  end.

(** ** Upload middleware and application route *)

(** A file part of the multipart form. *)
Record FilePart : Type := mkFilePart {
  fieldname : string;
  originalname : string;
  mimetype : string;
  size : N;
  content : string
}.

(** [req.file] as the disk storage engine fills it. *)
Record StoredFile : Type := mkStoredFile {
  filename : string;
  path : string
}.

(** A request to [POST /api/apply] whose body is an object: a multipart form
    (multer fills the text fields and at most one file part) or a parsed JSON
    body (no file). *)
Record ApplyRequest : Type := mkApplyRequest {
  ar_name : option string;
  ar_email : option string;
  ar_qualification : option string;
  ar_specialization : option string;
  ar_file : option FilePart;
  protocol : string;
  host : string
}.

(** [limits.fileSize] *)
Definition fileSize_limit : N := 5 * 1024 * 1024.

(** The [filename] callback of the disk storage. *)
Definition storage_filename (env : Env) (file : FilePart) : string :=
  let uniqueSuffix :=
    number_to_string (upload_now env) +:+ "-"
    +:+ number_to_string (random_draw env) in
  uniqueSuffix +:+ extname (originalname file).

(** The [destination] callback joined with the file name. *)
Definition storage_path (name : string) : string := "uploads/" +:+ name.

(** The [fileFilter] callback: [Some err] rejects the file. *)
Definition fileFilter (file : FilePart) : option error :=
  if negb (String.eqb (mimetype file) "application/pdf")
  then Some (OtherError "Only PDF files are allowed!")
  else None.

Definition write_file (p body : string) (w : World) : World :=
  mkWorld (contacts w) (applications w) (<[p := body]> (uploads w)).

Definition remove_file (p : string) (w : World) : World :=
  mkWorld (contacts w) (applications w) (delete p (uploads w)).

(** A completed [fs.unlink(path, callback)]: the file is gone, or the call
    failed, the file is still there and the failure is only recorded. *)
Definition unlink (env : Env) (p : string) : M unit :=
  if unlink_fault env
  then emit (UnlinkFailed p)
  else modify (remove_file p);; emit (FileUnlinked p).

(** The first [n] bytes of a content. *)
Fixpoint take_bytes (n : N) (s : string) : string :=
  match s with
  | EmptyString => EmptyString
  | String c s' =>
      if (n =? 0)%N then EmptyString else String c (take_bytes (N.pred n) s')
  end.

(** What the disk holds of a file that ran into the size limit. *)
Definition partial_copy (file : FilePart) : string :=
  take_bytes fileSize_limit (content file).

(** [upload.single('resume')]: a file under another field is an unexpected
    file; the filter runs before anything is stored; a file that passes both
    is named and written under its generated name, replacing whatever that
    path held; when it runs into the size limit the upload is aborted and
    multer removes the partial copy again (a failure of that removal is not
    surfaced) before it passes the error on. *)
Definition upload_single (env : Env) (req : ApplyRequest) : M (option StoredFile) :=
  match ar_file req with
  | None => mret None
  | Some file =>
      if negb (String.eqb (fieldname file) "resume")
      then throw (MulterError "LIMIT_UNEXPECTED_FILE")
      else
        match fileFilter file with
        | Some err => throw err
        | None =>
            let name := storage_filename env file in
            if (fileSize_limit <? size file)%N
            then
              modify (write_file (storage_path name) (partial_copy file));;
              emit (FileWritten (storage_path name));;
              unlink env (storage_path name);;
              throw (MulterError "LIMIT_FILE_SIZE")
            else
              modify (write_file (storage_path name) (content file));;
              emit (FileWritten (storage_path name));;
              mret (Some (mkStoredFile name (storage_path name)))
        end
  end.

(** An upload that passes the field-name check and the filter, and so
    reaches the storage engine. *)
Definition reaches_storage (file : FilePart) : Prop :=
  fieldname file = "resume" ∧ mimetype file = "application/pdf".

(** An upload that passes the field-name check, the filter and the size
    limit. *)
Definition accepted (file : FilePart) : Prop :=
  fieldname file = "resume" ∧ mimetype file = "application/pdf"
  ∧ (size file ≤ fileSize_limit)%N.

(** World and log entry left by [unlink]. *)
Definition after_unlink (env : Env) (p : string) (w : World) : World :=
  if unlink_fault env then w else remove_file p w.
Definition unlink_event (env : Env) (p : string) : Event :=
  if unlink_fault env then UnlinkFailed p else FileUnlinked p.

Definition resume_url (req : ApplyRequest) (file : StoredFile) : string :=
  protocol req +:+ "://" +:+ host req +:+ "/uploads/" +:+ filename file.

Definition apply_ack : string :=
  "Thank you for your application! We will review it shortly.".
Definition apply_failure : string :=
  "Error submitting application. Please try again.".

(** [new Application({ name, email, qualification, specialization,
    resumeUrl })] *)
Definition newApplication (env : Env) (req : ApplyRequest) (resumeUrl : string)
  : Application.t :=
  Application.mk (ar_name req) (ar_email req) (ar_qualification req)
                 (ar_specialization req) (Some resumeUrl) (created_now env).

(** The handler of [POST /api/apply], run after the upload middleware;
    [body] is the request when [req.body] is an object and [None] when it is
    undefined, [file] is [req.file]. In the [catch] block [fs.unlink] is only
    started: the response is sent next, and the deletion completes (and its
    callback logs a failure) after the handler is done. *)
Definition post_apply (env : Env) (body : option ApplyRequest)
    (file : option StoredFile) : M Response :=
  try_catch
    (req ← destructure body;
     match file with
     | None => respond 400 false "Please upload a resume"
     | Some f =>
         save "Application" Application.applicationSchema insert_application
              env (newApplication env req (resume_url req f));;
         respond 201 true apply_ack
     end)
    (λ error,
       match file with
       | Some f => emit (UnlinkStarted (path f))
       | None => mret tt
       end;;
       sent ← match error with
              | ValidationError _ errors =>
                  respond 400 false (joined_messages errors)
              | _ => respond 500 false apply_failure
              end;
       match file with
       | Some f => unlink env (path f)
       | None => mret tt
       end;;
       mret sent).

(** The whole route, for a request whose body became an object: errors of
    the upload middleware skip the handler and reach the error middleware.
    Requests to this path whose body did not become an object are
    [apply_route_unparsed] below. *)
Definition apply_route (env : Env) (req : ApplyRequest) : M Response :=
  try_catch (file ← upload_single env req; post_apply env (Some req) file)
            error_middleware.

(** A request to [POST /api/apply] whose body did not become an object: the
    JSON parser of [express.json()], which runs for every route, rejected the
    payload, or no parser applied and [req.body] is undefined. Such a request
    carries no file. *)
Inductive Unparsed : Type :=
| RejectedJson (parser_message : string)
| UndefinedBody.

Definition apply_route_unparsed (env : Env) (u : Unparsed) : M Response :=
  match u with
  | RejectedJson m => error_middleware (OtherError m)
  | UndefinedBody => try_catch (post_apply env None None) error_middleware
  end.

(** ** Listing route *)

(** Order of [sort({ createdAt: -1 })]: newer documents first. *)
Definition newer_first (a b : Application.t) : Prop :=
  (Application.createdAt b ≤ Application.createdAt a)%N.

#[global] Instance newer_first_dec : RelDecision newer_first.
Proof. intros a b. unfold newer_first. apply _. Defined.

(** [Application.find().sort({ createdAt: -1 })] *)
Definition find_sorted (env : Env) : M (list Application.t) :=
  emit (StoreQuery "Application");;
  match store_fault env with
  | Some msg => throw (OtherError msg)
  | None => gets (λ w, merge_sort newer_first (applications w))
  end.

Definition get_applications (env : Env) : M Response :=
  try_catch
    (found ← find_sorted env;
     emit (Responded 200);;
     mret (mkResponse 200 true None (Some found)))
    (λ error, respond 500 false "Error fetching applications").

(** ** The server *)

Inductive Request : Type :=
| PostContact (req : ContactRequest)
| PostApply (req : ApplyRequest)
| GetApplications
| PostApplyUnparsed (u : Unparsed).

Definition handle (env : Env) (req : Request) : M Response :=
  match req with
  | PostContact r => contact_route env r
  | PostApply r => apply_route env r
  | GetApplications => get_applications env
  | PostApplyUnparsed u => apply_route_unparsed env u
  end.

Definition result_of {A} (x : (error + A) * World * list Event) : error + A :=
  fst (fst x).
Definition world_of {A} (x : (error + A) * World * list Event) : World :=
  snd (fst x).
Definition log_of {A} (x : (error + A) * World * list Event) : list Event :=
  snd x.

(** The world after serving a sequence of requests, each in its own
    environment. *)
Fixpoint serve (reqs : list (Env * Request)) (w : World) : World :=
  match reqs with
  | [] => w
  | (env, req) :: rest => serve rest (world_of (handle env req w))
  end.


(** ** Static files

    [app.use('/uploads', express.static('uploads'))]: a request for
    [/uploads/<name>] is answered with the file of that name in the upload
    directory, and is not found otherwise. *)

Inductive StaticResponse : Type :=
| Served (body : string)
| NotFound.

Definition get_upload (w : World) (name : string) : StaticResponse :=
  match uploads w !! storage_path name with
  | Some body => Served body
  | None => NotFound
  end.

(** ** Shapes of requests, logs and addresses *)

Definition is_response (ev : Event) : bool :=
  match ev with
  | Responded _ => true
  | _ => false
  end.

(** The outcome of a deletion, logged when it completes. *)
Definition is_unlink_outcome (ev : Event) : bool :=
  match ev with
  | FileUnlinked _ | UnlinkFailed _ => true
  | _ => false
  end.

(** What a run does after it has sent its response. *)
Fixpoint after_response (log : list Event) : list Event :=
  match log with
  | [] => []
  | ev :: rest => if is_response ev then rest else after_response rest
  end.

(** Number of responses sent during a run. *)
Definition responses (log : list Event) : nat :=
  length (List.filter is_response log).

Definition is_separator (c : ascii) : bool := is_dot_or_dash c || is_at c.

(** Word characters and single separators in alternation: no character other
    than these, a separator only directly after a word character, and a word
    character at the end ([after_word] tells what precedes the list). *)
Fixpoint separated (after_word : bool) (w : list ascii) : bool :=
  match w with
  | [] => after_word
  | c :: w' =>
      if is_word c then separated true w'
      else is_separator c && after_word && separated false w'
  end.

Definition count_at (w : list ascii) : nat := length (List.filter is_at w).

Definition is_post_apply (r : Env * Request) : bool :=
  match snd r with
  | PostApply _ => true
  | _ => false
  end.

Definition is_post_contact (r : Env * Request) : bool :=
  match snd r with
  | PostContact _ => true
  | _ => false
  end.

(** Every persisted document satisfies its schema. *)
Definition valid_store (w : World) : Prop :=
  Forall (λ c, validate Contact.contactSchema c = []) (contacts w)
  ∧ Forall (λ a, validate Application.applicationSchema a = []) (applications w).

(** A path separator is nowhere between the scan position and the end of
    the component, once that end is set; the dot, once seen, is behind the
    scan position. *)
Definition scan_component (chars : list ascii) (i : Z) (st : ext_scan) : Prop :=
  (end_ st ≠ -1 →
     matchedSlash st = false
     ∧ ∀ k, i < k < end_ st → chars !! Z.to_nat k ≠ Some "/"%char)%Z
  ∧ (startDot st ≠ -1 → i < startDot st)%Z.

(** ** Sample inputs *)

Module Sample.
Definition joe_record : Application.t :=
  Application.mk (Some "Joe") (Some "joe@x.org") (Some "MSc") (Some "Chem")
    (Some "http://localhost:5000/uploads/1700000000100-42.pdf")
    1700000000105.
Definition jane_record : Application.t :=
  Application.mk (Some "Jane") (Some "jane@x.com") (Some "BSc") (Some "Bio")
    (Some "http://localhost:5000/uploads/1700000000000-123456789.pdf")
    1700000000005.

(** A quiet environment, and the same with a store that rejects the
    operation, without and with a failing [fs.unlink]. *)
Definition env : Env := mkEnv 1700000000000 123456789 1700000000005 None false.
Definition env_store_down : Env :=
  mkEnv 1700000000000 123456789 1700000000005 (Some "connection lost") false.
Definition env_all_down : Env :=
  mkEnv 1700000000000 123456789 1700000000005 (Some "connection lost") true.

Definition resume : FilePart :=
  mkFilePart "resume" "resume.pdf" "application/pdf" 1024 "%PDF-1.4 jane".
Definition notes : FilePart :=
  mkFilePart "resume" "notes.txt" "text/plain" 12 "hello world!".
(** A PDF whose name the client chose without the [.pdf] extension. *)
Definition renamed : FilePart :=
  mkFilePart "resume" "resume.txt" "application/pdf" 1024 "%PDF-1.4 jane".
Definition other_resume : FilePart :=
  mkFilePart "resume" "cv.pdf" "application/pdf" 2048 "%PDF-1.4 joe".

Definition application (file : option FilePart) : ApplyRequest :=
  mkApplyRequest (Some "Jane") (Some "jane@x.com") (Some "BSc") (Some "Bio")
                 file "http" "localhost:5000".

Definition contact : ContactBody :=
  mkContactBody (Some "Jane") (Some "jane@x.com") (Some "hi").
Definition later_env_store_down : Env :=
  mkEnv 1700000000777 55 1700000000780 (Some "connection lost") false.
Definition huge : FilePart :=
  mkFilePart "resume" "thesis.pdf" "application/pdf" 6000000 "%PDF-1.4 long".
Definition misfiled : FilePart :=
  mkFilePart "cv" "resume.pdf" "application/pdf" 1024 "%PDF-1.4 jane".
Definition nameless : ContactBody :=
  mkContactBody (Some "") (Some "a@b.com") (Some "hi").
End Sample.

(** * Properties *)

(** ** The matcher decides the language of a pattern *)

Section RegexFacts.

Lemma lang_void_iff w : lang Void w ↔ False.
Proof. split; [inversion 1 | done]. Qed.

Lemma lang_eps_iff w : lang Eps w ↔ w = [].
Proof. split; [by inversion 1 | intros ->; constructor]. Qed.

Lemma lang_class_iff p w : lang (Class p) w ↔ ∃ c, w = [c] ∧ p c = true.
Proof.
  split.
  - inversion 1; subst; eauto.
  - intros (c & -> & Hc). by constructor.
Qed.

Lemma lang_cat_iff r1 r2 w :
  lang (Cat r1 r2) w ↔ ∃ u v, w = u ++ v ∧ lang r1 u ∧ lang r2 v.
Proof.
  split.
  - inversion 1; subst; eauto.
  - intros (u & v & -> & Hu & Hv). by constructor.
Qed.

Lemma lang_alt_iff r1 r2 w : lang (Alt r1 r2) w ↔ lang r1 w ∨ lang r2 w.
Proof.
  split.
  - inversion 1; subst; auto.
  - intros [H|H]; [by apply lang_alt_l | by apply lang_alt_r].
Qed.

Lemma nullable_spec r : nullable r = true ↔ lang r [].
Proof.
  induction r as [| |p|r1 IH1 r2 IH2|r1 IH1 r2 IH2|r IH]; simpl.
  - rewrite lang_void_iff. split; [discriminate | done].
  - rewrite lang_eps_iff. done.
  - rewrite lang_class_iff. split; [discriminate | by intros (c & ? & _)].
  - rewrite andb_true_iff, IH1, IH2, lang_cat_iff. split.
    + intros [H1 H2]. exists [], []. done.
    + intros (u & v & Heq & Hu & Hv).
      symmetry in Heq. apply app_eq_nil in Heq as [-> ->]. done.
  - rewrite orb_true_iff, IH1, IH2, lang_alt_iff. done.
  - split; [constructor | reflexivity].
Qed.

Lemma cat_spec r1 r2 w : lang (cat r1 r2) w ↔ lang (Cat r1 r2) w.
Proof.
  assert (Hvoid_l : ∀ r, lang (Cat Void r) w ↔ False).
  { intros r. rewrite lang_cat_iff. split; [|done].
    intros (u & v & _ & Hu & _). by apply lang_void_iff in Hu. }
  assert (Hvoid_r : ∀ r, lang (Cat r Void) w ↔ False).
  { intros r. rewrite lang_cat_iff. split; [|done].
    intros (u & v & _ & _ & Hv). by apply lang_void_iff in Hv. }
  assert (Heps : ∀ r, lang (Cat Eps r) w ↔ lang r w).
  { intros r. rewrite lang_cat_iff. split.
    - intros (u & v & -> & Hu & Hv). apply lang_eps_iff in Hu as ->. done.
    - intros H. exists [], w. split; [done|]. split; [constructor | done]. }
  destruct r1, r2; simpl;
    rewrite ?Hvoid_l, ?Hvoid_r, ?Heps, ?lang_void_iff; reflexivity.
Qed.

Lemma alt_spec r1 r2 w : lang (alt r1 r2) w ↔ lang (Alt r1 r2) w.
Proof.
  rewrite lang_alt_iff.
  destruct r1, r2; simpl; rewrite ?lang_alt_iff, ?lang_void_iff; tauto.
Qed.

(** A non-empty word of [r*] starts with a non-empty word of [r]. *)
Lemma lang_star_cons r c w :
  lang (Star r) (c :: w) →
  ∃ u v, w = u ++ v ∧ lang r (c :: u) ∧ lang (Star r) v.
Proof.
  intros H. remember (Star r) as s eqn:Hs. remember (c :: w) as cw eqn:Hcw.
  revert c w Hcw.
  induction H as [| | | | | |r' u v Hu _ Hv IHv]; intros a w Hcw;
    try discriminate.
  injection Hs as ->.
  destruct u as [|a' u'].
  - simpl in Hcw. by apply IHv.
  - simpl in Hcw. injection Hcw as -> <-. eauto.
Qed.

Lemma deriv_spec c r w : lang (deriv c r) w ↔ lang r (c :: w).
Proof.
  revert w.
  induction r as [| |p|r1 IH1 r2 IH2|r1 IH1 r2 IH2|r IH]; intros w; simpl.
  - split; inversion 1.
  - split; inversion 1.
  - rewrite lang_class_iff. destruct (p c) eqn:Hp.
    + rewrite lang_eps_iff. split.
      * intros ->. eauto.
      * intros (c' & [= <- ->] & _). done.
    + split; [inversion 1|].
      intros (c' & [= <- ->] & Hc). congruence.
  - assert (Hcat : lang (cat (deriv c r1) r2) w ↔
                   ∃ u v, w = u ++ v ∧ lang r1 (c :: u) ∧ lang r2 v).
    { rewrite cat_spec, lang_cat_iff. by setoid_rewrite IH1. }
    rewrite lang_cat_iff.
    destruct (nullable r1) eqn:Hn.
    + rewrite alt_spec, lang_alt_iff, Hcat, IH2. split.
      * intros [(u & v & -> & Hu & Hv)|H].
        -- exists (c :: u), v. done.
        -- exists [], (c :: w). split; [done|]. split; [|done].
           by apply nullable_spec.
      * intros (u & v & Heq & Hu & Hv). destruct u as [|c' u'].
        -- simpl in Heq. subst v. by right.
        -- injection Heq as <- ->. left. eauto.
    + rewrite Hcat. split.
      * intros (u & v & -> & Hu & Hv). exists (c :: u), v. done.
      * intros (u & v & Heq & Hu & Hv). destruct u as [|c' u'].
        -- apply nullable_spec in Hu. congruence.
        -- injection Heq as <- ->. eauto.
  - rewrite alt_spec, !lang_alt_iff, IH1, IH2. reflexivity.
  - rewrite cat_spec, lang_cat_iff. split.
    + intros (u & v & -> & Hu & Hv). apply IH in Hu.
      change (lang (Star r) ((c :: u) ++ v)). by constructor.
    + intros H. apply lang_star_cons in H as (u & v & -> & Hu & Hv).
      exists u, v. by rewrite IH.
Qed.

Theorem matches_spec r w : matches r w = true ↔ lang r w.
Proof.
  revert r. induction w as [|c w IH]; intros r; simpl.
  - apply nullable_spec.
  - rewrite IH. apply deriv_spec.
Qed.

End RegexFacts.

(** ** Shape of the strings the email pattern accepts *)

Ltac lang_inv :=
  repeat match goal with
  | H : lang (Cat _ _) _ |- _ => apply lang_cat_iff in H as (? & ? & -> & ? & ?)
  | H : lang (Class _) _ |- _ => apply lang_class_iff in H as (? & -> & ?)
  | H : lang Eps _ |- _ => apply lang_eps_iff in H as ->
  | H : lang (Alt _ _) _ |- _ => apply lang_alt_iff in H as [?|?]
  end.

Section EmailPattern.












End EmailPattern.

(** ** Validation and the routes, step by step *)

Section Validation.
Context {D : Type}.
Implicit Types (schema : list (SchemaPath D)) (doc : D).

Lemma validate_In schema doc field msg :
  In (field, msg) (validate schema doc) ↔
  ∃ p, In p schema ∧ sp_path p = field ∧ validate_path p doc = Some msg.
Proof.
  induction schema as [|q schema IH]; simpl.
  - split; [done | by intros (p & [] & _)].
  - destruct (validate_path q doc) as [m|] eqn:Hq; simpl; rewrite IH; split.
    + intros [[= <- <-]|(p & Hp & Hf & Hm)]; eauto.
    + intros (p & [<-|Hp] & Hf & Hm); [left; congruence | right; eauto].
    + intros (p & Hp & Hf & Hm); eauto.
    + intros (p & [<-|Hp] & Hf & Hm); [congruence | eauto].
Qed.

Lemma validate_nil schema doc :
  validate schema doc = [] ↔ ∀ p, In p schema → validate_path p doc = None.
Proof.
  induction schema as [|q schema IH]; simpl; [done|].
  destruct (validate_path q doc) as [m|] eqn:Hq.
  - split; [done|]. intros H. specialize (H q (or_introl eq_refl)). congruence.
  - rewrite IH. split.
    + intros H p [<-|Hp]; auto.
    + intros H p Hp. auto.
Qed.

Lemma save_invalid model schema ins env doc w :
  validate schema doc ≠ [] →
  save model schema ins env doc w =
    (inl (ValidationError (validation_message model (validate schema doc))
                          (validate schema doc)), w, []).
Proof. unfold save. destruct (validate schema doc); done. Qed.

Lemma save_fault model schema ins env doc w msg :
  validate schema doc = [] → store_fault env = Some msg →
  save model schema ins env doc w = (inl (OtherError msg), w, [StoreWrite model]).
Proof. unfold save. intros -> Hf. cbn. rewrite Hf. done. Qed.

Lemma save_ok model schema ins env doc w :
  validate schema doc = [] → store_fault env = None →
  save model schema ins env doc w =
    (inr tt, ins doc w, [StoreWrite model; StoreInserted model]).
Proof. unfold save. intros -> Hf. cbn. rewrite Hf. done. Qed.

End Validation.

Section StringFacts.

Lemma string_app_nil_r s : s +:+ "" = s.
Proof. induction s; simpl; congruence. Qed.

Lemma string_app_assoc s1 s2 s3 : (s1 +:+ s2) +:+ s3 = s1 +:+ s2 +:+ s3.
Proof. induction s1; simpl; congruence. Qed.

Lemma list_of_string_app s1 s2 :
  list_ascii_of_string (s1 +:+ s2) =
  list_ascii_of_string s1 ++ list_ascii_of_string s2.
Proof. induction s1; simpl; congruence. Qed.

Lemma string_of_list_app l1 l2 :
  string_of_list_ascii (l1 ++ l2) =
  string_of_list_ascii l1 +:+ string_of_list_ascii l2.
Proof. induction l1; simpl; congruence. Qed.

End StringFacts.

Section JoinedMessages.

Lemma includes_refl s : includes s s.
Proof. exists "", "". simpl. by rewrite string_app_nil_r. Qed.

Lemma join_includes sep xs x : In x xs → includes (join sep xs) x.
Proof.
  induction xs as [|y xs IH]; [done|].
  intros [->|Hin].
  - destruct xs as [|z xs]; simpl; [apply includes_refl|].
    exists "", (sep +:+ join sep (z :: xs)). done.
  - destruct xs as [|z xs]; [done|].
    destruct (IH Hin) as (pre & post & Heq).
    exists (y +:+ sep +:+ pre), post.
    change (join sep (y :: z :: xs)) with (y +:+ sep +:+ join sep (z :: xs)).
    rewrite Heq. by rewrite !string_app_assoc.
Qed.

Lemma joined_messages_includes errors field msg :
  In (field, msg) errors → includes (joined_messages errors) msg.
Proof.
  intros Hin. apply join_includes. apply in_map_iff. by exists (field, msg).
Qed.

End JoinedMessages.

Section Routes.
Implicit Types (env : Env) (w : World).

Lemma post_contact_run env body w :
  post_contact env (Some body) w =
    match validate Contact.contactSchema (newContact env body), store_fault env with
    | [], None =>
        (inr (mkResponse 201 true (Some contact_ack) None),
         insert_contact (newContact env body) w,
         [StoreWrite "Contact"; StoreInserted "Contact"; Responded 201])
    | [], Some _ =>
        (inr (mkResponse 500 false (Some contact_failure) None), w,
         [StoreWrite "Contact"; Responded 500])
    | e :: errs, _ =>
        (inr (mkResponse 400 false (Some (joined_messages (e :: errs))) None),
         w, [Responded 400])
    end.
Proof.
  unfold post_contact, try_catch, destructure, mbind, M_bind, bind.
  cbn [mret M_ret ret].
  destruct (validate Contact.contactSchema (newContact env body)) as [|e errs] eqn:Hv.
  - destruct (store_fault env) as [msg|] eqn:Hf.
    + by rewrite (save_fault _ _ _ _ _ _ msg).
    + by rewrite save_ok.
  - rewrite save_invalid by (rewrite Hv; done). by rewrite Hv.
Qed.

Lemma post_contact_undefined env w :
  post_contact env None w =
    (inr (mkResponse 500 false (Some contact_failure) None), w, [Responded 500]).
Proof. reflexivity. Qed.

Lemma upload_single_accepted env req file w :
  ar_file req = Some file → accepted file →
  upload_single env req w =
    (inr (Some (mkStoredFile (storage_filename env file)
                             (storage_path (storage_filename env file)))),
     write_file (storage_path (storage_filename env file)) (content file) w,
     [FileWritten (storage_path (storage_filename env file))]).
Proof.
  intros Hfile (Hfield & Hmime & Hsize).
  unfold upload_single, fileFilter. rewrite Hfile, Hfield, Hmime. simpl.
  destruct (N.ltb_spec fileSize_limit (size file)) as [Hlt|_]; [lia|].
  reflexivity.
Qed.

Lemma unlink_run env p w :
  unlink env p w = (inr tt, after_unlink env p w, [unlink_event env p]).
Proof. unfold unlink, after_unlink, unlink_event. by destruct (unlink_fault env). Qed.

Lemma upload_single_oversize env req file w :
  ar_file req = Some file → reaches_storage file →
  (fileSize_limit < size file)%N →
  upload_single env req w =
    (inl (MulterError "LIMIT_FILE_SIZE"),
     after_unlink env (storage_path (storage_filename env file))
       (write_file (storage_path (storage_filename env file))
                   (partial_copy file) w),
     [FileWritten (storage_path (storage_filename env file));
      unlink_event env (storage_path (storage_filename env file))]).
Proof.
  intros Hfile (Hfield & Hmime) Hsize.
  unfold upload_single, fileFilter. rewrite Hfile, Hfield, Hmime. simpl.
  apply N.ltb_lt in Hsize. rewrite Hsize.
  unfold mbind, M_bind, bind. cbn [modify emit]. by rewrite unlink_run.
Qed.

Lemma post_apply_run env req f w :
  post_apply env (Some req) (Some f) w =
    let doc := newApplication env req (resume_url req f) in
    match validate Application.applicationSchema doc, store_fault env with
    | [], None =>
        (inr (mkResponse 201 true (Some apply_ack) None),
         insert_application doc w,
         [StoreWrite "Application"; StoreInserted "Application"; Responded 201])
    | [], Some _ =>
        (inr (mkResponse 500 false (Some apply_failure) None),
         after_unlink env (path f) w,
         [StoreWrite "Application"; UnlinkStarted (path f); Responded 500;
          unlink_event env (path f)])
    | e :: errs, _ =>
        (inr (mkResponse 400 false (Some (joined_messages (e :: errs))) None),
         after_unlink env (path f) w,
         [UnlinkStarted (path f); Responded 400; unlink_event env (path f)])
    end.
Proof.
  unfold post_apply, try_catch, destructure, mbind, M_bind, bind.
  cbn [mret M_ret ret]. cbv zeta.
  destruct (validate Application.applicationSchema
              (newApplication env req (resume_url req f))) as [|e errs] eqn:Hv.
  - destruct (store_fault env) as [msg|] eqn:Hf.
    + rewrite (save_fault _ _ _ _ _ _ msg) by done.
      unfold after_unlink, unlink_event, unlink.
      by destruct (unlink_fault env).
    + by rewrite save_ok.
  - rewrite save_invalid by (rewrite Hv; done). rewrite Hv.
    unfold after_unlink, unlink_event, unlink.
    by destruct (unlink_fault env).
Qed.

Lemma post_apply_undefined env w :
  post_apply env None None w =
    (inr (mkResponse 500 false (Some apply_failure) None), w, [Responded 500]).
Proof. reflexivity. Qed.

Lemma apply_route_accepted env req file w :
  ar_file req = Some file → accepted file →
  apply_route env req w =
    let p := storage_path (storage_filename env file) in
    let f := mkStoredFile (storage_filename env file) p in
    let w1 := write_file p (content file) w in
    let doc := newApplication env req (resume_url req f) in
    match validate Application.applicationSchema doc, store_fault env with
    | [], None =>
        (inr (mkResponse 201 true (Some apply_ack) None),
         insert_application doc w1,
         [FileWritten p; StoreWrite "Application";
          StoreInserted "Application"; Responded 201])
    | [], Some _ =>
        (inr (mkResponse 500 false (Some apply_failure) None),
         after_unlink env p w1,
         [FileWritten p; StoreWrite "Application"; UnlinkStarted p;
          Responded 500; unlink_event env p])
    | e :: errs, _ =>
        (inr (mkResponse 400 false (Some (joined_messages (e :: errs))) None),
         after_unlink env p w1,
         [FileWritten p; UnlinkStarted p; Responded 400; unlink_event env p])
    end.
Proof.
  intros Hfile Hacc.
  unfold apply_route, try_catch, mbind, M_bind, bind.
  rewrite (upload_single_accepted env req file w Hfile Hacc).
  rewrite post_apply_run. cbv zeta.
  destruct (validate Application.applicationSchema _);
    destruct (store_fault env); reflexivity.
Qed.

(** An oversize upload that reached the storage engine: the partial copy is
    written under the generated name and removed again before the error
    middleware answers. *)
Lemma apply_route_oversize env req file w :
  ar_file req = Some file → reaches_storage file →
  (fileSize_limit < size file)%N →
  apply_route env req w =
    (inr (mkResponse 400 false (Some "File is too large. Maximum size is 5MB")
                     None),
     after_unlink env (storage_path (storage_filename env file))
       (write_file (storage_path (storage_filename env file))
                   (partial_copy file) w),
     [FileWritten (storage_path (storage_filename env file));
      unlink_event env (storage_path (storage_filename env file));
      Responded 400]).
Proof.
  intros Hfile Hreach Hsize.
  unfold apply_route, try_catch, mbind, M_bind, bind.
  by rewrite (upload_single_oversize env req file w Hfile Hreach Hsize).
Qed.

(** An application request whose upload, if any, does not reach the storage
    engine is answered by the handler's check or by the error middleware,
    and changes nothing. *)
Lemma apply_route_unstored env req w :
  (∀ file, ar_file req = Some file → ¬ reaches_storage file) →
  ∃ code msg,
    apply_route env req w =
      (inr (mkResponse code false (Some msg) None), w, [Responded code])
    ∧ (code = 400 ∨ code = 500) ∧ msg ≠ "".
Proof.
  intros Hnot. destruct (ar_file req) as [file|] eqn:Hfile.
  - destruct (String.eqb_spec (fieldname file) "resume") as [Hfield|Hfield].
    + destruct (String.eqb_spec (mimetype file) "application/pdf") as [Hmime|Hmime].
      * destruct (Hnot file eq_refl). done.
      * exists 500, "Only PDF files are allowed!". split; [|by split; [right|]].
        unfold apply_route, try_catch, mbind, M_bind, bind, upload_single,
          fileFilter.
        rewrite Hfile, Hfield. simpl.
        apply String.eqb_neq in Hmime. by rewrite Hmime.
    + exists 400, "Error uploading file". split; [|by split; [left|]].
      unfold apply_route, try_catch, mbind, M_bind, bind, upload_single.
      rewrite Hfile. apply String.eqb_neq in Hfield. by rewrite Hfield.
  - exists 400, "Please upload a resume". split; [|by split; [left|]].
    unfold apply_route, try_catch, mbind, M_bind, bind, upload_single.
    by rewrite Hfile.
Qed.

(** The three ways of an application request through the upload
    middleware. *)
Lemma apply_request_cases req :
  (∃ file, ar_file req = Some file ∧ accepted file)
  ∨ (∃ file, ar_file req = Some file ∧ reaches_storage file
             ∧ (fileSize_limit < size file)%N)
  ∨ (∀ file, ar_file req = Some file → ¬ reaches_storage file).
Proof.
  destruct (ar_file req) as [file|]; [|by right; right].
  destruct (String.eqb_spec (fieldname file) "resume") as [Hfield|Hfield];
    [|right; right; by intros ? [= <-] [? ?]].
  destruct (String.eqb_spec (mimetype file) "application/pdf") as [Hmime|Hmime];
    [|right; right; by intros ? [= <-] [? ?]].
  destruct (N.le_gt_cases (size file) fileSize_limit) as [Hle|Hgt].
  - left. by exists file.
  - right; left. by exists file.
Qed.

Lemma apply_route_unparsed_run env u w :
  ∃ msg,
    apply_route_unparsed env u w =
      (inr (mkResponse 500 false (Some msg) None), w, [Responded 500])
    ∧ msg ≠ "".
Proof.
  destruct u as [parser_message|]; simpl.
  - unfold error_middleware.
    destruct (String.eqb_spec parser_message ""); eexists; by split.
  - exists apply_failure. by split.
Qed.

Lemma get_applications_run env w :
  get_applications env w =
    match store_fault env with
    | None =>
        (inr (mkResponse 200 true None
                (Some (merge_sort newer_first (applications w)))), w,
         [StoreQuery "Application"; Responded 200])
    | Some _ =>
        (inr (mkResponse 500 false (Some "Error fetching applications") None),
         w, [StoreQuery "Application"; Responded 500])
    end.
Proof.
  unfold get_applications, find_sorted, try_catch, mbind, M_bind, bind. simpl.
  by destruct (store_fault env).
Qed.

End Routes.

(** ** Submissions without a file, with a rejected file *)

Lemma route_no_file_run env req w :
  ar_file req = None →
  apply_route env req w =
    (inr (mkResponse 400 false (Some "Please upload a resume") None), w,
     [Responded 400]).
Proof.
  intros Hfile.
  unfold apply_route, try_catch, mbind, M_bind, bind, upload_single.
  rewrite Hfile. reflexivity.
Qed.

(** C3 (amended). An application submission with no attached file whose
    body reaches the handler as an object (a multipart form without a file
    part, or a parsed JSON body) is answered with HTTP 400 and
    [success = false] ("Please upload a resume"), before any store write is
    attempted. Whatever becomes of the body (an object, rejected by the JSON
    parser, or left undefined), a submission without a file does nothing but
    send its response: no store write is attempted, and the store and the
    upload directory are the ones the request found. *)
Theorem apply_without_file env req w :
  ar_file req = None →
  apply_route env req w =
    (inr (mkResponse 400 false (Some "Please upload a resume") None), w,
     [Responded 400])
  ∧ ∀ u, ∃ resp,
      handle env (PostApplyUnparsed u) w = (inr resp, w, [Responded (status resp)])
      ∧ success resp = false.
Proof.
  intros Hfile. split.
  - unfold apply_route, try_catch, mbind, M_bind, bind, upload_single.
    rewrite Hfile. reflexivity.
  - intros [parser_message|]; simpl.
    + unfold error_middleware.
      destruct (String.eqb parser_message "");
        eexists (mkResponse _ _ _ _); split; reflexivity.
    + eexists (mkResponse _ _ _ _); split; reflexivity.
Qed.

Lemma apply_without_file_witness :
  apply_route Sample.env_store_down (Sample.application None) empty_world =
    (inr (mkResponse 400 false (Some "Please upload a resume") None),
     empty_world, [Responded 400]).
Proof.
  apply (apply_without_file Sample.env_store_down (Sample.application None)).
  reflexivity.
Defined.

(** C3, as stated, fails for a submission without a file whose body does not
    become an object: when the JSON parser rejects the payload the error
    middleware answers with HTTP 500 and the parser's message, and when
    [req.body] is undefined the handler's destructuring throws and its
    [catch] block answers with HTTP 500. *)
Lemma apply_without_file_not_400 :
  handle Sample.env
         (PostApplyUnparsed (RejectedJson "Unexpected end of JSON input"))
         empty_world
  = (inr (mkResponse 500 false (Some "Unexpected end of JSON input") None),
     empty_world, [Responded 500])
  ∧ handle Sample.env (PostApplyUnparsed UndefinedBody) empty_world
    = (inr (mkResponse 500 false (Some apply_failure) None), empty_world,
       [Responded 500]).
Proof. split; reflexivity. Qed.

(** C2 (as the code behaves). A file in the [resume] field whose content type
    is not [application/pdf] is turned down by the filter with a plain error,
    which the error middleware answers with HTTP 500 and the error's message;
    no file is written and the world is unchanged. *)
Theorem non_pdf_upload_response env req file w :
  ar_file req = Some file → fieldname file = "resume" →
  mimetype file ≠ "application/pdf" →
  apply_route env req w =
    (inr (mkResponse 500 false (Some "Only PDF files are allowed!") None), w,
     [Responded 500]).
Proof.
  intros Hfile Hfield Hmime.
  unfold apply_route, try_catch, mbind, M_bind, bind, upload_single, fileFilter.
  rewrite Hfile, Hfield. simpl.
  apply String.eqb_neq in Hmime. rewrite Hmime. reflexivity.
Qed.

Lemma non_pdf_upload_witness :
  apply_route Sample.env (Sample.application (Some Sample.notes)) empty_world =
    (inr (mkResponse 500 false (Some "Only PDF files are allowed!") None),
     empty_world, [Responded 500]).
Proof.
  apply (non_pdf_upload_response Sample.env _ Sample.notes);
    [reflexivity | reflexivity | discriminate].
Defined.

(** ** Contact submissions *)

Section ContactFacts.
Implicit Types (env : Env) (w : World) (body : ContactBody).

Lemma email_re_nonempty e : regex_test email_re e = true → e ≠ "".
Proof. intros H ->. discriminate H. Qed.

Lemma contact_fields_valid env n e m :
  n ≠ "" → regex_test email_re e = true → m ≠ "" →
  validate Contact.contactSchema
    (newContact env (mkContactBody (Some n) (Some e) (Some m))) = [].
Proof.
  intros Hn He Hm. pose proof (email_re_nonempty e He) as Hne.
  apply String.eqb_neq in Hn, Hm, Hne.
  unfold Contact.contactSchema, validate, validate_path. simpl.
  by rewrite Hn, Hm, Hne, He.
Qed.

Lemma missing_required v : missing v ↔ check_required v = false.
Proof.
  unfold missing, check_required. destruct v as [s|].
  - destruct (String.eqb_spec s "") as [->|Hne]; simpl.
    + split; auto.
    + split; [|done]. intros [Hnone|Hempty]; [done|].
      injection Hempty as ->. done.
  - split; auto.
Qed.

Lemma required_violation {D} (p : SchemaPath D) doc :
  check_required (sp_get p doc) = false →
  validate_path p doc = Some (sp_required p).
Proof. unfold validate_path. by intros ->. Qed.

End ContactFacts.

(** C4 (amended). A contact submission whose three fields pass validation
    (non-empty name and message, email matching the pattern) is answered
    according to the store write: when the store accepts it, a Contact record
    with exactly the submitted values (and the current time) is appended and
    the response is HTTP 201, [success = true], with the fixed
    acknowledgement; when the store rejects it, nothing is persisted and the
    response is HTTP 500 with the fixed failure message. *)
Theorem contact_valid_submission env w n e m :
  n ≠ "" → regex_test email_re e = true → m ≠ "" →
  contact_route env (JsonBody (mkContactBody (Some n) (Some e) (Some m))) w =
    match store_fault env with
    | None =>
        (inr (mkResponse 201 true (Some contact_ack) None),
         mkWorld (contacts w ++ [Contact.mk (Some n) (Some e) (Some m)
                                            (created_now env)])
                 (applications w) (uploads w),
         [StoreWrite "Contact"; StoreInserted "Contact"; Responded 201])
    | Some _ =>
        (inr (mkResponse 500 false (Some contact_failure) None), w,
         [StoreWrite "Contact"; Responded 500])
    end.
Proof.
  intros Hn He Hm. simpl. rewrite post_contact_run.
  rewrite (contact_fields_valid env n e m Hn He Hm).
  destruct (store_fault env); reflexivity.
Qed.

Lemma contact_valid_submission_witness :
  contact_route Sample.env (JsonBody Sample.contact) empty_world =
    (inr (mkResponse 201 true (Some contact_ack) None),
     mkWorld [Contact.mk (Some "Jane") (Some "jane@x.com") (Some "hi")
                         1700000000005] [] ∅,
     [StoreWrite "Contact"; StoreInserted "Contact"; Responded 201]).
Proof.
  apply (contact_valid_submission Sample.env empty_world "Jane" "jane@x.com" "hi");
    [discriminate | reflexivity | discriminate].
Defined.

(** C4, as stated, fails when the store rejects the write: the fields of the
    sample submission pass validation, yet the response is HTTP 500 and no
    Contact record is persisted. *)
Lemma contact_valid_not_persisted :
  validate Contact.contactSchema
    (newContact Sample.env_store_down Sample.contact) = []
  ∧ result_of (contact_route Sample.env_store_down (JsonBody Sample.contact)
                             empty_world)
    = inr (mkResponse 500 false (Some contact_failure) None)
  ∧ contacts (world_of (contact_route Sample.env_store_down
                                      (JsonBody Sample.contact) empty_world))
    = [].
Proof. repeat split; reflexivity. Qed.

(** C5 (amended). A contact submission whose body reaches the handler as
    an object and in which a required field is missing or empty
    is answered with HTTP 400 and [success = false]; the message is the
    messages of the violated fields joined with ". ", a field being listed
    exactly when one of its validators fails; so the message contains the text
    of every violated field, in particular "Name is required" ("Email is
    required", "Message is required") when the name (email, message) is
    missing or empty. Nothing is written to the store. *)
Theorem contact_missing_field env w body :
  missing (cb_name body) ∨ missing (cb_email body) ∨ missing (cb_message body) →
  let errors := validate Contact.contactSchema (newContact env body) in
  contact_route env (JsonBody body) w =
    (inr (mkResponse 400 false (Some (joined_messages errors)) None), w,
     [Responded 400])
  ∧ (∀ field msg,
       In (field, msg) errors ↔
       ∃ p, In p Contact.contactSchema ∧ sp_path p = field
            ∧ validate_path p (newContact env body) = Some msg)
  ∧ (∀ field msg, In (field, msg) errors → includes (joined_messages errors) msg)
  ∧ (missing (cb_name body) →
       includes (joined_messages errors) "Name is required")
  ∧ (missing (cb_email body) →
       includes (joined_messages errors) "Email is required")
  ∧ (missing (cb_message body) →
       includes (joined_messages errors) "Message is required").
Proof.
  intros Hmissing errors. rewrite !missing_required in Hmissing.
  assert (Hviol : ∀ p, In p Contact.contactSchema →
                       check_required (sp_get p (newContact env body)) = false →
                       includes (joined_messages errors) (sp_required p)).
  { intros p Hp Hreq. apply (joined_messages_includes errors (sp_path p)).
    apply validate_In. exists p. by rewrite required_violation. }
  split; [|split; [|split; [|split; [|split]]]].
  - simpl. rewrite post_contact_run. fold errors.
    destruct errors as [|e errs] eqn:Herr.
    + exfalso. pose proof (proj1 (validate_nil _ _) Herr) as Hnil.
      destruct Hmissing as [H|[H|H]].
      * specialize (Hnil Contact.name_path). unfold validate_path in Hnil.
        simpl in Hnil. rewrite H in Hnil. simpl in Hnil.
        discriminate Hnil. by left.
      * specialize (Hnil Contact.email_path). unfold validate_path in Hnil.
        simpl in Hnil. rewrite H in Hnil. simpl in Hnil.
        discriminate Hnil. right; by left.
      * specialize (Hnil Contact.message_path). unfold validate_path in Hnil.
        simpl in Hnil. rewrite H in Hnil. simpl in Hnil.
        discriminate Hnil. right; right; by left.
    + reflexivity.
  - intros field msg. apply validate_In.
  - intros field msg. apply joined_messages_includes.
  - intros H%missing_required.
    apply (Hviol Contact.name_path); [by left | done].
  - intros H%missing_required.
    apply (Hviol Contact.email_path); [right; by left | done].
  - intros H%missing_required.
    apply (Hviol Contact.message_path); [right; right; by left | done].
Qed.

Lemma contact_missing_field_witness :
  contact_route Sample.env (JsonBody Sample.nameless) empty_world =
    (inr (mkResponse 400 false (Some "Name is required") None), empty_world,
     [Responded 400])
  ∧ includes "Name is required" "Name is required".
Proof.
  pose proof (contact_missing_field Sample.env empty_world Sample.nameless
                (or_introl (or_intror eq_refl))) as (Hrun & _ & _ & Hname & _).
  split; [exact Hrun | exact (Hname (or_intror eq_refl))].
Defined.

(** C5, as stated, fails for a contact submission that reaches the handler
    without a parsed body: every field is missing, the destructuring of the
    undefined [req.body] throws, and the [catch] block answers with HTTP 500
    and the generic message instead of the fields' messages. *)
Lemma contact_without_body :
  contact_route Sample.env NoBody empty_world
  = (inr (mkResponse 500 false (Some contact_failure) None), empty_world,
     [Responded 500]).
Proof. reflexivity. Qed.


(** ** The email rule of both schemas *)

Section EmailRule.



End EmailRule.





(** ** Error messages *)

(** C9 (amended). When the store rejects the operation of a request, the
    route answers with HTTP 500 and its own fixed message, whatever the
    store's error says: the contact route, the application route and the
    listing route each have one. The error middleware answers a multer error
    with one of two fixed messages, but any other error that reaches it with
    the error's own message (and with "Something broke!" when that is empty). *)
Theorem failure_messages env w detail :
  store_fault env = Some detail →
  (∀ body, validate Contact.contactSchema (newContact env body) = [] →
     result_of (contact_route env (JsonBody body) w)
     = inr (mkResponse 500 false (Some contact_failure) None))
  ∧ (∀ req file, ar_file req = Some file → accepted file →
       validate Application.applicationSchema
         (newApplication env req
            (resume_url req
               (mkStoredFile (storage_filename env file)
                             (storage_path (storage_filename env file))))) = [] →
       result_of (apply_route env req w)
       = inr (mkResponse 500 false (Some apply_failure) None))
  ∧ result_of (get_applications env w)
    = inr (mkResponse 500 false (Some "Error fetching applications") None)
  ∧ (∀ code, ∃ fixed,
       result_of (error_middleware (MulterError code) w)
       = inr (mkResponse 400 false (Some fixed) None)
       ∧ (fixed = "File is too large. Maximum size is 5MB"
          ∨ fixed = "Error uploading file"))
  ∧ (∀ own, own ≠ "" →
       result_of (error_middleware (OtherError own) w)
       = inr (mkResponse 500 false (Some own) None))
  ∧ result_of (error_middleware (OtherError "") w)
    = inr (mkResponse 500 false (Some "Something broke!") None).
Proof.
  intros Hfault. split; [|split; [|split; [|split; [|split]]]].
  - intros body Hvalid. simpl. rewrite post_contact_run, Hvalid, Hfault. done.
  - intros req file Hfile Hacc Hvalid.
    rewrite (apply_route_accepted env req file w Hfile Hacc). cbv zeta.
    rewrite Hvalid, Hfault. done.
  - unfold get_applications, find_sorted, try_catch, mbind, M_bind, bind.
    simpl. rewrite Hfault. done.
  - intros code. unfold error_middleware.
    destruct (String.eqb code "LIMIT_FILE_SIZE"); eexists; split;
      [reflexivity | by left | reflexivity | by right].
  - intros own Hown. unfold error_middleware.
    apply String.eqb_neq in Hown. rewrite Hown. done.
  - reflexivity.
Qed.

Lemma failure_messages_witness :
  result_of (contact_route Sample.env_store_down (JsonBody Sample.contact)
                           empty_world)
  = inr (mkResponse 500 false (Some contact_failure) None)
  ∧ result_of (get_applications Sample.env_store_down empty_world)
    = inr (mkResponse 500 false (Some "Error fetching applications") None).
Proof.
  pose proof (failure_messages Sample.env_store_down empty_world
                "connection lost" eq_refl) as (Hcontact & _ & Hlist & _).
  split; [exact (Hcontact Sample.contact eq_refl) | exact Hlist].
Defined.

(** C9, as stated, fails for an error that is not a validation error and
    reaches the error middleware: a contact request whose JSON body the parser
    rejects is answered with the parser's own message. *)
Lemma parser_message_surfaces :
  result_of (contact_route Sample.env
               (MalformedJson "Unexpected end of JSON input") empty_world)
  = inr (mkResponse 500 false (Some "Unexpected end of JSON input") None).
Proof. reflexivity. Qed.

(** ** Cleanup after a failed save; files come before records *)

Ltac split_log :=
  repeat match goal with
  | H : [] = ?pre ++ _ :: _ |- _ => destruct pre; discriminate H
  | H : _ :: _ = ?pre ++ _ :: _ |- _ =>
      destruct pre; simpl in H; injection H as ? H; try discriminate; subst
  end.

Section Cleanup.
Implicit Types (env : Env) (w : World) (req : ApplyRequest).

Lemma uploads_after_unlink env p w :
  uploads (after_unlink env p w) !! p =
    if unlink_fault env then uploads w !! p else None.
Proof.
  unfold after_unlink. destruct (unlink_fault env); [done|].
  simpl. apply lookup_delete_eq.
Qed.

Lemma unlink_event_not_inserted env p c :
  unlink_event env p ≠ StoreInserted c.
Proof. unfold unlink_event. by destruct (unlink_fault env). Qed.

Lemma application_inserted_after_file env (req : Request) w pre post :
  log_of (handle env req w) = pre ++ StoreInserted "Application" :: post →
  ∃ r file,
    req = PostApply r ∧ ar_file r = Some file ∧ accepted file
    ∧ In (FileWritten (storage_path (storage_filename env file))) pre
    ∧ uploads (world_of (handle env req w))
        !! storage_path (storage_filename env file) = Some (content file).
Proof.
  destruct req as [[parser_message|body|]|r| |u]; simpl.
  - unfold error_middleware. destruct (String.eqb parser_message "");
      simpl; intros H; split_log.
  - rewrite post_contact_run.
    destruct (validate _ _); destruct (store_fault env); simpl;
      intros H; split_log.
  - rewrite post_contact_undefined. simpl. intros H; split_log.
  - destruct (apply_request_cases r)
      as [(file & Hfile & Hacc)|[(file & Hfile & Hreach & Hsize)|Hnot]].
    + rewrite (apply_route_accepted env r file w Hfile Hacc). cbv zeta.
      destruct (validate _ _); destruct (store_fault env); simpl;
        intros H; split_log;
        try match goal with
            | Hev : unlink_event _ _ = StoreInserted _ |- _ =>
                by apply unlink_event_not_inserted in Hev
            end.
      exists r, file. split; [done|]. split; [done|]. split; [done|].
      split; [by left|]. apply lookup_insert_eq.
    + rewrite (apply_route_oversize env r file w Hfile Hreach Hsize). simpl.
      intros H; split_log;
        try match goal with
            | Hev : unlink_event _ _ = StoreInserted _ |- _ =>
                by apply unlink_event_not_inserted in Hev
            end.
    + destruct (apply_route_unstored env r w Hnot) as (code & msg & Hrun & _).
      rewrite Hrun. simpl. intros H; split_log.
  - rewrite get_applications_run.
    destruct (store_fault env); simpl; intros H; split_log.
  - destruct (apply_route_unparsed_run env u w) as (msg & Hrun & _).
    rewrite Hrun. simpl. intros H; split_log.
Qed.

End Cleanup.

(** C1 (amended). For an application submission whose upload was accepted
    and written: if the save of the Application record fails (a validation
    error or a rejected store write), no record is persisted and the handler
    asks for the written file to be deleted; the file is gone when the
    deletion succeeds and is still on disk when the deletion fails, which is
    only logged. And whatever the request, an Application record is inserted
    only after the resume file of that request has been written, and the file
    is on disk when the request ends. *)
Theorem cleanup_after_failed_save env req file w :
  ar_file req = Some file → accepted file →
  let p := storage_path (storage_filename env file) in
  let doc := newApplication env req
               (resume_url req (mkStoredFile (storage_filename env file) p)) in
  ((∃ e, result_of (save "Application" Application.applicationSchema
                         insert_application env doc
                         (write_file p (content file) w)) = inl e) →
   applications (world_of (apply_route env req w)) = applications w
   ∧ In (FileWritten p) (log_of (apply_route env req w))
   ∧ (unlink_fault env = false →
        uploads (world_of (apply_route env req w)) !! p = None
        ∧ In (FileUnlinked p) (log_of (apply_route env req w)))
   ∧ (unlink_fault env = true →
        uploads (world_of (apply_route env req w)) !! p = Some (content file)
        ∧ In (UnlinkFailed p) (log_of (apply_route env req w))))
  ∧ (∀ env' (req' : Request) w' pre post,
       log_of (handle env' req' w') = pre ++ StoreInserted "Application" :: post →
       ∃ r file',
         req' = PostApply r ∧ ar_file r = Some file' ∧ accepted file'
         ∧ In (FileWritten (storage_path (storage_filename env' file'))) pre
         ∧ uploads (world_of (handle env' req' w'))
             !! storage_path (storage_filename env' file') = Some (content file')).
Proof.
  intros Hfile Hacc p doc. split; [|apply application_inserted_after_file].
  intros [e Hfail].
  rewrite (apply_route_accepted env req file w Hfile Hacc). cbv zeta.
  fold p. fold doc.
  assert (Hlook : ∀ r log,
            uploads (world_of (A:=Response)
                       (r, after_unlink env p (write_file p (content file) w), log))
              !! p = if unlink_fault env then Some (content file) else None).
  { intros r log. unfold world_of. simpl. rewrite uploads_after_unlink.
    simpl. by rewrite lookup_insert_eq. }
  assert (Happs : ∀ q v, applications (after_unlink env q (write_file q v w))
                         = applications w).
  { intros q v. unfold after_unlink. by destruct (unlink_fault env). }
  destruct (validate Application.applicationSchema doc) as [|v errs] eqn:Hv.
  - destruct (store_fault env) as [msg|] eqn:Hf.
    + rewrite Hlook. unfold world_of, log_of, unlink_event. simpl.
      rewrite Happs. split; [done|]. split; [by left|].
      split; intros ->; (split; [done|]); do 4 right; by left.
    + rewrite save_ok in Hfail by done. discriminate Hfail.
  - rewrite Hlook. unfold world_of, log_of, unlink_event. simpl.
    rewrite Happs. split; [done|]. split; [by left|].
    split; intros ->; (split; [done|]); do 3 right; by left.
Qed.

Lemma cleanup_after_failed_save_witness :
  uploads (world_of (apply_route Sample.env_store_down
                       (Sample.application (Some Sample.resume)) empty_world))
    !! "uploads/1700000000000-123456789.pdf" = None.
Proof.
  pose proof (cleanup_after_failed_save Sample.env_store_down
                (Sample.application (Some Sample.resume)) Sample.resume
                empty_world eq_refl) as Hthm.
  destruct Hthm as [Hclean _].
  { repeat split. vm_compute. discriminate. }
  destruct Hclean as (_ & _ & Hgone & _).
  { exists (OtherError "connection lost"). reflexivity. }
  exact (proj1 (Hgone eq_refl)).
Defined.

(** C1, as stated, fails when the deletion itself fails: the upload is
    accepted and written, the save is rejected by the store, the response is
    HTTP 500, and the written file is still on disk after the request. *)
Lemma file_left_after_failed_cleanup :
  accepted Sample.resume
  ∧ result_of (save "Application" Application.applicationSchema
                 insert_application Sample.env_all_down
                 (newApplication Sample.env_all_down
                    (Sample.application (Some Sample.resume))
                    "http://localhost:5000/uploads/1700000000000-123456789.pdf")
                 (write_file "uploads/1700000000000-123456789.pdf"
                             "%PDF-1.4 jane" empty_world))
    = inl (OtherError "connection lost")
  ∧ apply_route Sample.env_all_down (Sample.application (Some Sample.resume))
                empty_world
    = (inr (mkResponse 500 false (Some apply_failure) None),
       mkWorld [] [] {[ "uploads/1700000000000-123456789.pdf" := "%PDF-1.4 jane" ]},
       [FileWritten "uploads/1700000000000-123456789.pdf";
        StoreWrite "Application";
        UnlinkStarted "uploads/1700000000000-123456789.pdf";
        Responded 500;
        UnlinkFailed "uploads/1700000000000-123456789.pdf"])
  ∧ uploads (world_of (apply_route Sample.env_all_down
                         (Sample.application (Some Sample.resume)) empty_world))
      !! "uploads/1700000000000-123456789.pdf" = Some "%PDF-1.4 jane".
Proof.
  split; [repeat split; vm_compute; discriminate|].
  split; [reflexivity|]. split; [|reflexivity].
  vm_compute. reflexivity.
Qed.

(** ** Listing *)

Section Listing.

#[local] Instance newer_first_total : Total newer_first.
Proof. intros a b. unfold newer_first. lia. Qed.

#[local] Instance newer_first_trans : Transitive newer_first.
Proof. intros a b c. unfold newer_first. lia. Qed.

#[local] Instance newer_first_refl : Reflexive newer_first.
Proof. intros a. unfold newer_first. lia. Qed.

(** In a strongly sorted list, earlier positions are related to later
    ones. *)
Lemma StronglySorted_lookup {A} (R : relation A) `{!Reflexive R} (l : list A) :
  StronglySorted R l →
  ∀ i j a b, (i ≤ j)%nat → l !! i = Some a → l !! j = Some b → R a b.
Proof.
  induction 1 as [|x l Hl IH Hall]; intros i j a b Hij Ha Hb; [done|].
  destruct i as [|i], j as [|j]; simpl in Ha, Hb.
  - by simplify_eq.
  - simplify_eq. rewrite Forall_forall in Hall. apply Hall.
    by eapply list_elem_of_lookup_2.
  - lia.
  - apply (IH i j); [lia|done..].
Qed.

Lemma find_sorted_newest_first (l : list Application.t) :
  let found := merge_sort newer_first l in
  found ≡ₚ l
  ∧ ∀ i j a b, (i ≤ j)%nat → found !! i = Some a → found !! j = Some b →
               (Application.createdAt b ≤ Application.createdAt a)%N.
Proof.
  split; [apply merge_sort_Permutation|].
  apply (StronglySorted_lookup newer_first).
  apply StronglySorted_merge_sort; apply _.
Qed.

End Listing.

(** C6 (amended). After any sequence of requests, when the store answers the
    query, [GET /api/applications] responds with HTTP 200, [success = true]
    and all persisted Application records (a permutation of the collection),
    ordered so that [createdAt] never increases along the sequence; the
    request changes nothing. *)
Theorem applications_newest_first (reqs : list (Env * Request)) (env : Env) :
  store_fault env = None →
  let w := serve reqs empty_world in
  ∃ found,
    get_applications env w =
      (inr (mkResponse 200 true None (Some found)), w,
       [StoreQuery "Application"; Responded 200])
    ∧ found ≡ₚ applications w
    ∧ ∀ i j a b, (i ≤ j)%nat → found !! i = Some a → found !! j = Some b →
                 (Application.createdAt b ≤ Application.createdAt a)%N.
Proof.
  intros Hfault w. exists (merge_sort newer_first (applications w)).
  split; [|apply find_sorted_newest_first].
  unfold get_applications, find_sorted, try_catch, mbind, M_bind, bind.
  simpl. rewrite Hfault. reflexivity.
Qed.

Lemma applications_newest_first_witness :
  ∃ found,
    get_applications Sample.env
      (serve [(Sample.env, PostApply (Sample.application (Some Sample.resume)))]
             empty_world)
    = (inr (mkResponse 200 true None (Some found)),
       serve [(Sample.env, PostApply (Sample.application (Some Sample.resume)))]
             empty_world,
       [StoreQuery "Application"; Responded 200])
    ∧ found ≡ₚ [Sample.jane_record].
Proof.
  destruct (applications_newest_first
              [(Sample.env, PostApply (Sample.application (Some Sample.resume)))]
              Sample.env eq_refl) as (found & Hrun & Hperm & _).
  exists found. split; [exact Hrun | exact Hperm].
Defined.

(** C6, as stated, fails when the store rejects the query: one Application
    record is persisted, and the listing is answered with HTTP 500 and no
    records. *)
Lemma listing_without_records :
  applications
    (serve [(Sample.env, PostApply (Sample.application (Some Sample.resume)))]
           empty_world) = [Sample.jane_record]
  ∧ result_of (get_applications Sample.env_store_down
                 (serve [(Sample.env,
                          PostApply (Sample.application (Some Sample.resume)))]
                        empty_world))
    = inr (mkResponse 500 false (Some "Error fetching applications") None).
Proof. split; reflexivity. Qed.

(** ** Stored file names *)

Section Extname.
Local Open Scope Z_scope.

Lemma scan_char_inv chars code i st :
  0 ≤ i → chars !! Z.to_nat i = Some code →
  scan_inv chars i st → scan_inv chars (i - 1) (scan_char code i st).
Proof.
  unfold scan_inv, scan_char. intros Hi Hc [Hend Hdot].
  destruct (Z.eqb_spec (end_ st) (-1)) as [He|He]; simpl;
    destruct (Ascii.eqb_spec code ".") as [->|Hcode]; simpl;
    repeat (match goal with |- context [Z.eqb ?a ?b] =>
              destruct (Z.eqb_spec a b); simpl end);
    (split; [lia|]); try (left; lia); right;
    try (split; [lia|]; split; [done|lia]);
    destruct Hdot as [?|(? & ? & ?)]; try lia; (split; [lia|]; split; [done|lia]).
Qed.

Lemma extname_scan_inv chars rchars suffix i st :
  chars = rev rchars ++ suffix → i = Z.of_nat (length rchars) - 1 →
  scan_inv chars i st → ∃ i', scan_inv chars i' (extname_scan rchars i st).
Proof.
  revert suffix i st.
  induction rchars as [|code rest IH]; intros suffix i st Hchars Hi Hinv; simpl.
  - by exists i.
  - assert (Hcode : chars !! Z.to_nat i = Some code).
    { subst chars i. simpl rev. rewrite <-app_assoc. simpl app.
      replace (Z.to_nat (Z.of_nat (length (code :: rest)) - 1))
        with (length (rev rest)) by (rewrite length_rev; simpl length; lia).
      by apply list_lookup_middle. }
    assert (Hrest : chars = rev rest ++ code :: suffix).
    { subst chars. simpl. by rewrite <-app_assoc. }
    assert (Hi' : i - 1 = Z.of_nat (length rest) - 1).
    { subst i. simpl length. lia. }
    destruct (Ascii.eqb code "/").
    + destruct (negb (matchedSlash st)).
      * exists i. exact Hinv.
      * apply (IH (code :: suffix)); [done..|].
        destruct Hinv as [Hend Hdot]. split; [lia|done].
    + apply (IH (code :: suffix)); [done..|].
      apply scan_char_inv; [subst i; simpl length; lia|done..].
Qed.

Lemma extname_chars_shape chars :
  extname_chars chars = [] ∨ ∃ rest, extname_chars chars = "."%char :: rest.
Proof.
  unfold extname_chars.
  destruct (extname_scan_inv chars (rev chars) [] (Z.of_nat (length chars) - 1)
              (mkScan (-1) 0 (-1) true 0)) as [i' [_ Hdot]].
  { by rewrite rev_involutive, app_nil_r. }
  { by rewrite length_rev. }
  { split; by left. }
  set (st := extname_scan _ _ _) in *.
  destruct (Z.eqb_spec (startDot st) (-1)) as [Hsd|Hsd]; simpl; [by left|].
  match goal with |- context [if ?b then _ else _] => destruct b end;
    [by left|].
  right. destruct Hdot as [?|(H0 & Hlook & Hlt)]; [done|].
  unfold slice. rewrite (drop_S _ _ _ Hlook).
  replace (Z.to_nat (end_ st - startDot st))
    with (S (Z.to_nat (end_ st - startDot st - 1))) by lia.
  simpl. eauto.
Qed.

Lemma extname_extension_like s : extension_like (extname s).
Proof.
  unfold extension_like, extname.
  destruct (extname_chars_shape (list_ascii_of_string s)) as [->|[rest ->]].
  - by left.
  - right. simpl. eauto.
Qed.

End Extname.

Section Decimal.

Lemma pretty_N_char_digit x : is_digit (pretty_N_char x) = true.
Proof. unfold pretty_N_char. by repeat case_match. Qed.

Lemma pretty_N_go_digits x s : all_digits s → all_digits (pretty_N_go x s).
Proof.
  revert s. induction (N.lt_wf_0 x) as [x _ IH]; intros s Hs.
  destruct (decide (x = 0%N)) as [->|Hx]; [by rewrite pretty_N_go_0|].
  rewrite pretty_N_go_step by lia. apply IH.
  - apply N.div_lt; lia.
  - unfold all_digits in *. simpl. by rewrite pretty_N_char_digit, Hs.
Qed.

Lemma pretty_N_go_length x s :
  (String.length s ≤ String.length (pretty_N_go x s))%nat.
Proof.
  revert s. induction (N.lt_wf_0 x) as [x _ IH]; intros s.
  destruct (decide (x = 0%N)) as [->|Hx]; [by rewrite pretty_N_go_0|].
  rewrite pretty_N_go_step by lia.
  etrans; [|apply IH, N.div_lt; lia]. simpl. lia.
Qed.

Lemma number_to_string_digits n : all_digits (number_to_string n).
Proof.
  unfold number_to_string, pretty, pretty_N. case_decide; [done|].
  by apply pretty_N_go_digits.
Qed.

Lemma number_to_string_nonempty n : number_to_string n ≠ "".
Proof.
  unfold number_to_string, pretty, pretty_N. case_decide; [done|].
  rewrite pretty_N_go_step by lia. intros Heq.
  pose proof (pretty_N_go_length (n `div` 10)%N
                (String (pretty_N_char (n `mod` 10)%N) "")) as Hlen.
  rewrite Heq in Hlen. simpl in Hlen. lia.
Qed.

Lemma number_to_string_inj n m :
  number_to_string n = number_to_string m → n = m.
Proof. apply (inj pretty). Qed.

End Decimal.

Section FileNames.

(** A run of digits followed by something that does not start with a digit
    splits in one way only. *)
Lemma digits_prefix_unique (d1 d2 r1 r2 : list ascii) :
  forallb is_digit d1 = true → forallb is_digit d2 = true →
  starts_without_digit r1 → starts_without_digit r2 →
  d1 ++ r1 = d2 ++ r2 → d1 = d2 ∧ r1 = r2.
Proof.
  revert d2. induction d1 as [|c d1 IH]; intros [|c' d2]; simpl;
    intros Hd1 Hd2 Hr1 Hr2 Heq.
  - done.
  - subst r1. simpl in Hr1. apply andb_true_iff in Hd2 as [Hc _]. congruence.
  - subst r2. simpl in Hr2. apply andb_true_iff in Hd1 as [Hc _]. congruence.
  - injection Heq as -> Heq.
    apply andb_true_iff in Hd1 as [_ Hd1]. apply andb_true_iff in Hd2 as [_ Hd2].
    destruct (IH d2 Hd1 Hd2 Hr1 Hr2 Heq) as [-> ->]. done.
Qed.

Lemma list_of_string_inj s1 s2 :
  list_ascii_of_string s1 = list_ascii_of_string s2 → s1 = s2.
Proof.
  intros H. rewrite <-(string_of_list_ascii_of_string s1),
                    <-(string_of_list_ascii_of_string s2). by rewrite H.
Qed.

Lemma extension_starts_without_digit e :
  extension_like e → starts_without_digit (list_ascii_of_string e).
Proof. by intros [->|[rest ->]]. Qed.

(** The three parts of a stored name can be read back from it. *)
Lemma filename_parts_inj t1 r1 e1 t2 r2 e2 :
  extension_like e1 → extension_like e2 →
  (number_to_string t1 +:+ "-" +:+ number_to_string r1) +:+ e1 =
  (number_to_string t2 +:+ "-" +:+ number_to_string r2) +:+ e2 →
  t1 = t2 ∧ r1 = r2 ∧ e1 = e2.
Proof.
  intros He1 He2 Heq.
  apply (f_equal list_ascii_of_string) in Heq.
  rewrite !list_of_string_app in Heq. simpl in Heq.
  rewrite <-!app_assoc in Heq. simpl in Heq.
  apply digits_prefix_unique in Heq as [Ht Heq];
    [|apply number_to_string_digits..|done|done].
  injection Heq as Heq.
  apply digits_prefix_unique in Heq as [Hr He];
    [|apply number_to_string_digits..
     |by apply extension_starts_without_digit
     |by apply extension_starts_without_digit].
  apply list_of_string_inj, number_to_string_inj in Ht, Hr.
  apply list_of_string_inj in He. done.
Qed.

Lemma storage_filename_inj env1 file1 env2 file2 :
  storage_filename env1 file1 = storage_filename env2 file2 ↔
  upload_now env1 = upload_now env2 ∧ random_draw env1 = random_draw env2
  ∧ extname (originalname file1) = extname (originalname file2).
Proof.
  unfold storage_filename. split.
  - apply filename_parts_inj; apply extname_extension_like.
  - by intros (-> & -> & ->).
Qed.

End FileNames.

Section PdfExtension.
Local Open Scope Z_scope.

Lemma extname_scan_step code rest i st :
  Ascii.eqb code "/" = false →
  extname_scan (code :: rest) i st = extname_scan rest (i - 1) (scan_char code i st).
Proof. simpl. by intros ->. Qed.

(** Before any dot has been seen, a character other than a dot only fixes
    the end of the component. *)
Lemma scan_char_before_dot code i sp e ms pd :
  Ascii.eqb code "." = false → e ≠ -1 →
  scan_char code i (mkScan (-1) sp e ms pd) = mkScan (-1) sp e ms pd.
Proof.
  intros Hc He. unfold scan_char. simpl.
  destruct (Z.eqb_spec e (-1)); [done|]. simpl. by rewrite Hc.
Qed.

Lemma scan_char_first_dot i sp e ms pd :
  e ≠ -1 → scan_char "." i (mkScan (-1) sp e ms pd) = mkScan i sp e ms pd.
Proof.
  intros He. unfold scan_char. simpl. by destruct (Z.eqb_spec e (-1)).
Qed.

(** Once the dot is found, the rest of a component without separators
    leaves the bounds alone and records that something precedes the dot. *)
Lemma extname_scan_after_dot rchars i st :
  forallb (λ c, negb (Ascii.eqb c "/")) rchars = true →
  startDot st ≠ -1 → end_ st ≠ -1 →
  (rchars ≠ [] ∨ preDotState st ≠ 0) →
  let st' := extname_scan rchars i st in
  startDot st' = startDot st ∧ end_ st' = end_ st
  ∧ startPart st' = startPart st ∧ preDotState st' ≠ 0.
Proof.
  revert i st. induction rchars as [|code rest IH]; intros i st Hplain Hsd He Hpre.
  - simpl. destruct Hpre as [?|?]; done.
  - simpl in Hplain. apply andb_true_iff in Hplain as [Hcode Hrest].
    apply negb_true_iff in Hcode. rewrite extname_scan_step by done.
    assert (Hstep : startDot (scan_char code i st) = startDot st
                    ∧ end_ (scan_char code i st) = end_ st
                    ∧ startPart (scan_char code i st) = startPart st
                    ∧ preDotState (scan_char code i st) ≠ 0).
    { unfold scan_char.
      destruct (Z.eqb_spec (end_ st) (-1)); [done|].
      destruct (Ascii.eqb code ".");
        repeat (match goal with |- context [Z.eqb ?a ?b] =>
                  destruct (Z.eqb_spec a b) end);
        simpl; repeat split; (done || lia). }
    destruct Hstep as (Hsd' & He' & Hsp' & Hpre').
    destruct (IH (i - 1) (scan_char code i st) Hrest) as (? & ? & ? & ?);
      [congruence | congruence | by right |].
    cbv zeta. repeat split; congruence.
Qed.

Lemma extname_chars_pdf (base : list ascii) :
  base ≠ [] → forallb (λ c, negb (Ascii.eqb c "/")) base = true →
  extname_chars (base ++ list_ascii_of_string ".pdf")
  = list_ascii_of_string ".pdf".
Proof.
  intros Hne Hplain. unfold extname_chars. simpl list_ascii_of_string.
  rewrite rev_app_distr, length_app. simpl rev. simpl app. simpl length.
  set (n := Z.of_nat (length base)).
  replace (Z.of_nat (length base + 4) - 1) with (n + 3) by lia.
  rewrite extname_scan_step by done.
  replace (scan_char "f" (n + 3) (mkScan (-1) 0 (-1) true 0))
    with (mkScan (-1) 0 (n + 4) false 0)
    by (unfold scan_char; simpl; f_equal; lia).
  rewrite extname_scan_step, scan_char_before_dot by (done || lia).
  rewrite extname_scan_step, scan_char_before_dot by (done || lia).
  rewrite extname_scan_step, scan_char_first_dot by (done || lia).
  replace (n + 3 - 1 - 1 - 1) with n by lia.
  destruct (extname_scan_after_dot (rev base) (n - 1) (mkScan n 0 (n + 4) false 0))
    as (Hsd & He & Hsp & Hpre).
  { rewrite forallb_forall in *. intros c Hc. apply Hplain.
    by apply in_rev. }
  { simpl; lia. }
  { simpl; lia. }
  { left. intros Hrev. apply Hne.
    apply (f_equal (@rev ascii)) in Hrev. by rewrite rev_involutive in Hrev. }
  simpl in Hsd, He, Hsp. rewrite Hsd, He, Hsp.
  destruct (Z.eqb_spec n (-1)); [lia|].
  destruct (Z.eqb_spec (n + 4) (-1)); [lia|].
  destruct (Z.eqb_spec (preDotState (extname_scan (rev base) (n - 1)
                                       (mkScan n 0 (n + 4) false 0))) 0);
    [done|].
  destruct (Z.eqb_spec n (n + 4 - 1)); [lia|].
  rewrite andb_false_r. simpl.
  unfold slice. replace (Z.to_nat n) with (length base) by lia.
  rewrite drop_app_length.
  replace (Z.to_nat (n + 4 - n)) with 4%nat by lia. reflexivity.
Qed.

Lemma extname_pdf (base : string) :
  base ≠ "" → no_slash base → extname (base +:+ ".pdf") = ".pdf".
Proof.
  intros Hne Hplain. unfold extname. rewrite list_of_string_app.
  rewrite extname_chars_pdf; [done| |done].
  intros Hnil. apply Hne. by apply list_of_string_inj.
Qed.

End PdfExtension.

(** C7 (amended). For every accepted upload the stored file name is the
    decimal timestamp of the upload, a hyphen, the decimal random suffix, and
    the extension of the client's original file name ([path.extname], empty
    or starting with a dot); the file is written under [uploads/] with that
    name. The extension is [.pdf] when the original name is a non-empty base
    without path separators followed by [.pdf]; the content type alone does
    not make it so. *)
Theorem stored_filename_form env req file w :
  ar_file req = Some file → accepted file →
  let name := number_to_string (upload_now env) +:+ "-"
              +:+ number_to_string (random_draw env)
              +:+ extname (originalname file) in
  upload_single env req w =
    (inr (Some (mkStoredFile name ("uploads/" +:+ name))),
     write_file ("uploads/" +:+ name) (content file) w,
     [FileWritten ("uploads/" +:+ name)])
  ∧ all_digits (number_to_string (upload_now env))
  ∧ all_digits (number_to_string (random_draw env))
  ∧ extension_like (extname (originalname file))
  ∧ (∀ base, base ≠ "" → no_slash base → originalname file = base +:+ ".pdf" →
       name = number_to_string (upload_now env) +:+ "-"
              +:+ number_to_string (random_draw env) +:+ ".pdf").
Proof.
  intros Hfile Hacc name.
  assert (Hname : storage_filename env file = name).
  { unfold storage_filename, name. by rewrite !string_app_assoc. }
  split; [|split; [|split; [|split]]].
  - rewrite (upload_single_accepted env req file w Hfile Hacc).
    unfold storage_path. by rewrite Hname.
  - apply number_to_string_digits.
  - apply number_to_string_digits.
  - apply extname_extension_like.
  - intros base Hne Hplain Horig. unfold name.
    by rewrite Horig, extname_pdf.
Qed.

Lemma stored_filename_form_witness :
  upload_single Sample.env (Sample.application (Some Sample.resume)) empty_world =
    (inr (Some (mkStoredFile "1700000000000-123456789.pdf"
                             "uploads/1700000000000-123456789.pdf")),
     write_file "uploads/1700000000000-123456789.pdf" "%PDF-1.4 jane" empty_world,
     [FileWritten "uploads/1700000000000-123456789.pdf"]).
Proof.
  destruct (stored_filename_form Sample.env
              (Sample.application (Some Sample.resume)) Sample.resume empty_world
              eq_refl) as (Hrun & _).
  { repeat split. vm_compute. discriminate. }
  exact Hrun.
Defined.

(** C7, as stated, fails for an accepted upload whose original name does not
    end in [.pdf]: the stored name takes the original extension and is not
    of the form timestamp, hyphen, random suffix, [.pdf]. *)
Lemma stored_filename_not_pdf :
  accepted Sample.renamed
  ∧ result_of (upload_single Sample.env
                 (Sample.application (Some Sample.renamed)) empty_world)
    = inr (Some (mkStoredFile "1700000000000-123456789.txt"
                              "uploads/1700000000000-123456789.txt"))
  ∧ ∀ t r, "1700000000000-123456789.txt"
           ≠ (number_to_string t +:+ "-" +:+ number_to_string r) +:+ ".pdf".
Proof.
  split; [repeat split; vm_compute; discriminate|]. split; [reflexivity|].
  intros t r Heq.
  change "1700000000000-123456789.txt"
    with ((number_to_string 1700000000000 +:+ "-"
           +:+ number_to_string 123456789) +:+ ".txt") in Heq.
  apply filename_parts_inj in Heq as (_ & _ & Hext);
    [discriminate Hext | right; eauto | right; eauto].
Qed.

(** C8 (amended). Two accepted uploads get the same stored file name exactly
    when they share the millisecond timestamp, the random suffix and the
    extension of the original name; so the stored names of any set of uploads,
    of whatever size, are pairwise distinct provided no two of them share both
    the timestamp and the random suffix. *)
Theorem stored_filenames_distinct (uploaded : list (Env * FilePart)) :
  NoDup (map (λ u, (upload_now (fst u), random_draw (fst u))) uploaded) →
  NoDup (map (λ u, storage_filename (fst u) (snd u)) uploaded)
  ∧ ∀ env1 file1 env2 file2,
      storage_filename env1 file1 = storage_filename env2 file2 ↔
      upload_now env1 = upload_now env2 ∧ random_draw env1 = random_draw env2
      ∧ extname (originalname file1) = extname (originalname file2).
Proof.
  intros Hkeys. split; [|apply storage_filename_inj].
  induction uploaded as [|u rest IH]; simpl in *; [constructor|].
  apply NoDup_cons in Hkeys as [Hfresh Hrest].
  apply NoDup_cons. split; [|by apply IH].
  intros Hin. apply Hfresh.
  apply list_elem_of_In, in_map_iff in Hin as (u' & Heq & Hu').
  apply storage_filename_inj in Heq as (Ht & Hr & _).
  apply list_elem_of_In, in_map_iff. exists u'. split; [congruence | done].
Qed.

Lemma stored_filenames_distinct_witness :
  NoDup [storage_filename Sample.env Sample.resume;
         storage_filename (mkEnv 1700000000000 987654321 1700000000005 None false)
                          Sample.other_resume].
Proof.
  refine (proj1 (stored_filenames_distinct
                   [(Sample.env, Sample.resume);
                    (mkEnv 1700000000000 987654321 1700000000005 None false,
                     Sample.other_resume)] _)).
  simpl. apply NoDup_cons. split.
  - rewrite list_elem_of_singleton. discriminate.
  - apply NoDup_singleton.
Defined.

(** C8, as stated, fails: a thousand uploads named in the same millisecond
    with the same random draw all get one stored name; and of two such
    uploads served one after the other, the second overwrites the file of the
    first, whose record still points to it. *)
Lemma stored_filenames_collide :
  length (replicate 1000 (Sample.env, Sample.resume)) = 1000%nat
  ∧ ¬ NoDup (map (λ u, storage_filename (fst u) (snd u))
                 (replicate 1000 (Sample.env, Sample.resume)))
  ∧ storage_filename Sample.env Sample.resume
    = storage_filename Sample.env Sample.other_resume
  ∧ uploads (serve [(Sample.env, PostApply (Sample.application (Some Sample.resume)));
                    (Sample.env, PostApply (Sample.application (Some Sample.other_resume)))]
                   empty_world)
    = {[ "uploads/1700000000000-123456789.pdf" := "%PDF-1.4 joe" ]}
  ∧ map Application.resumeUrl
        (applications
           (serve [(Sample.env, PostApply (Sample.application (Some Sample.resume)));
                   (Sample.env, PostApply (Sample.application (Some Sample.other_resume)))]
                  empty_world))
    = [Some "http://localhost:5000/uploads/1700000000000-123456789.pdf";
       Some "http://localhost:5000/uploads/1700000000000-123456789.pdf"].
Proof.
  split; [apply length_replicate|]. split; [|split; [reflexivity|split]].
  - change 1000%nat with (S (S 998)). simpl.
    intros Hnd. apply NoDup_cons in Hnd as [Hfresh _].
    apply Hfresh. by left.
  - vm_compute. reflexivity.
  - reflexivity.
Qed.

(** * Further properties of the routes *)

(** ** The error middleware and rejected uploads *)

(** The error middleware always answers: with HTTP 400 exactly for
    multer errors and HTTP 500 otherwise, always with [success = false] and a
    message that is not empty, and without touching the store or the upload
    directory. *)
Theorem error_middleware_answers err w :
  ∃ resp msg,
    error_middleware err w = (inr resp, w, [Responded (status resp)])
    ∧ success resp = false
    ∧ message resp = Some msg ∧ msg ≠ ""
    ∧ data resp = None
    ∧ (status resp = 400 ∨ status resp = 500)
    ∧ (status resp = 400 ↔ ∃ code, err = MulterError code).
Proof.
  destruct err as [msg errors|code|msg]; unfold error_middleware.
  - destruct (String.eqb_spec msg "") as [->|Hne];
      eexists (mkResponse _ _ _ _), _;
      (split; [reflexivity|]); simpl; repeat split; try done;
      try (by right); try (intros [code [=]]).
  - destruct (String.eqb code "LIMIT_FILE_SIZE");
      eexists (mkResponse _ _ _ _), _;
      (split; [reflexivity|]); simpl; repeat split; try done;
      try (by left); eauto.
  - destruct (String.eqb_spec msg "") as [->|Hne];
      eexists (mkResponse _ _ _ _), _;
      (split; [reflexivity|]); simpl; repeat split; try done;
      try (by right); try (intros [code [=]]).
Qed.



(** X3. A file sent under any field other than [resume] is answered with
    HTTP 400 "Error uploading file", before the filter looks at its type and
    whatever its size; nothing is written. *)
Theorem unexpected_field_rejected env req file w :
  ar_file req = Some file → fieldname file ≠ "resume" →
  apply_route env req w =
    (inr (mkResponse 400 false (Some "Error uploading file") None), w,
     [Responded 400]).
Proof.
  intros Hfile Hfield.
  unfold apply_route, try_catch, mbind, M_bind, bind, upload_single.
  rewrite Hfile. apply String.eqb_neq in Hfield. rewrite Hfield. reflexivity.
Qed.

Lemma unexpected_field_rejected_witness :
  apply_route Sample.env (Sample.application (Some Sample.misfiled)) empty_world =
    (inr (mkResponse 400 false (Some "Error uploading file") None), empty_world,
     [Responded 400]).
Proof.
  apply (unexpected_field_rejected Sample.env _ Sample.misfiled);
    [reflexivity | discriminate].
Defined.

(** ** Every request gets one answer *)

Section Outcomes.
Implicit Types (env : Env) (w : World) (req : ApplyRequest).

Lemma unlink_event_no_response env p : is_response (unlink_event env p) = false.
Proof. unfold unlink_event. by destruct (unlink_fault env). Qed.

Lemma unlink_event_outcome env p : is_unlink_outcome (unlink_event env p) = true.
Proof. unfold unlink_event. by destruct (unlink_fault env). Qed.

End Outcomes.

(** Brings a run of [handle] into the form of a triple, one goal per way
    through the routes. *)
Ltac handle_cases env req w :=
  let Hvalid := fresh "Hvalid" in
  let parser_message := fresh "parser_message" in
  let body := fresh "body" in
  let r := fresh "r" in
  let u := fresh "u" in
  destruct req as [[parser_message|body|]|r| |u]; simpl handle;
  [ unfold error_middleware;
    destruct (String.eqb_spec parser_message "")
  | rewrite post_contact_run;
    destruct (validate Contact.contactSchema (newContact env body))
      eqn:Hvalid;
    destruct (store_fault env)
  | rewrite post_contact_undefined
  | let file := fresh "file" in
    let Hfile := fresh "Hfile" in
    let Hacc := fresh "Hacc" in
    let Hreach := fresh "Hreach" in
    let Hsize := fresh "Hsize" in
    let Hnot := fresh "Hnot" in
    let Hcode := fresh "Hcode" in
    let Hmsg := fresh "Hmsg" in
    let Hrun := fresh "Hrun" in
    destruct (apply_request_cases r)
      as [(file & Hfile & Hacc)|[(file & Hfile & Hreach & Hsize)|Hnot]];
    [ rewrite (apply_route_accepted env r file w Hfile Hacc); cbv zeta;
      destruct (validate Application.applicationSchema _) eqn:Hvalid;
      destruct (store_fault env)
    | rewrite (apply_route_oversize env r file w Hfile Hreach Hsize)
    | destruct (apply_route_unstored env r w Hnot)
        as (? & ? & Hrun & Hcode & Hmsg); rewrite Hrun ]
  | rewrite get_applications_run; destruct (store_fault env)
  | let Hmsg := fresh "Hmsg" in
    let Hrun := fresh "Hrun" in
    destruct (apply_route_unparsed_run env u w) as (? & Hrun & Hmsg);
    rewrite Hrun ].

(** X1. Whatever the request and the environment, the server answers it:
    no error escapes the routes and the middleware and exactly one response
    is sent. Every store operation and every file write of the request comes
    before the response; the only thing that can follow it is the outcome of
    the deletion that the [catch] block of the application route started.
    The status is 200, 201, 400 or 500, [success] is true exactly for 200 and
    201, and records are returned exactly with status 200. *)
Theorem every_request_answered_once env (req : Request) w :
  ∃ resp,
    result_of (handle env req w) = inr resp
    ∧ responses (log_of (handle env req w)) = 1%nat
    ∧ In (Responded (status resp)) (log_of (handle env req w))
    ∧ forallb is_unlink_outcome (after_response (log_of (handle env req w)))
      = true
    ∧ (status resp = 200 ∨ status resp = 201 ∨ status resp = 400
       ∨ status resp = 500)
    ∧ (success resp = true ↔ status resp = 200 ∨ status resp = 201)
    ∧ (is_Some (data resp) ↔ status resp = 200).
Proof.
  handle_cases env req w;
    try (destruct Hcode as [-> | ->]);
    eexists; (split; [reflexivity|]);
    unfold log_of, responses; simpl;
    rewrite ?unlink_event_no_response; simpl;
    rewrite ?unlink_event_no_response, ?unlink_event_outcome; simpl;
    (split; [reflexivity|]); (split; [auto 10|]); (split; [reflexivity|]);
    (split; [auto|]);
    (split; [split; [try discriminate; auto | intros [?|?]; done]|]);
    (split; [intros [? ?]; done | try done; intros; eexists; reflexivity]).
Qed.

(** ** Application submissions *)

Section ApplicationFacts.
Implicit Types (env : Env) (w : World) (req : ApplyRequest).




End ApplicationFacts.







(** ** What requests do to the store and the upload directory *)

Section Frames.
Implicit Types (env : Env) (w : World).

Lemma contacts_after_unlink env p w :
  contacts (after_unlink env p w) = contacts w.
Proof. unfold after_unlink. by destruct (unlink_fault env). Qed.

Lemma applications_after_unlink env p w :
  applications (after_unlink env p w) = applications w.
Proof. unfold after_unlink. by destruct (unlink_fault env). Qed.

(** One request appends at most one record, to the collection of its own
    route, and leaves the records that are there as they are. *)
Lemma handle_appends env (req : Request) w :
  ∃ cs aps,
    contacts (world_of (handle env req w)) = contacts w ++ cs
    ∧ applications (world_of (handle env req w)) = applications w ++ aps
    ∧ (length cs ≤ if is_post_contact (env, req) then 1 else 0)%nat
    ∧ (length aps ≤ if is_post_apply (env, req) then 1 else 0)%nat
    ∧ Forall (λ c, validate Contact.contactSchema c = []) cs
    ∧ Forall (λ a, validate Application.applicationSchema a = []) aps.
Proof.
  handle_cases env req w; unfold world_of; cbn [fst snd];
    rewrite ?contacts_after_unlink, ?applications_after_unlink;
    unfold insert_contact, insert_application, write_file;
    cbn [contacts applications is_post_contact is_post_apply snd];
    try (exists [], []; rewrite !app_nil_r; cbn [length];
         repeat split; (done || lia || constructor)).
  - eexists [_], []. rewrite app_nil_r. cbn [length].
    repeat split; try done; try lia. by constructor.
  - eexists [], [_]. rewrite app_nil_r. cbn [length].
    repeat split; try done; try lia. by constructor.
Qed.

End Frames.

(** X7. The store is append-only: after any sequence of requests the
    Contact and Application records that were there are still there, unchanged
    and in their place, followed by the records added since; at most one
    Contact record is added per contact request and at most one Application
    record per application request. *)
Theorem store_append_only (reqs : list (Env * Request)) (w : World) :
  ∃ cs aps,
    contacts (serve reqs w) = contacts w ++ cs
    ∧ applications (serve reqs w) = applications w ++ aps
    ∧ (length cs ≤ length (List.filter is_post_contact reqs))%nat
    ∧ (length aps ≤ length (List.filter is_post_apply reqs))%nat.
Proof.
  revert w. induction reqs as [|[env req] reqs IH]; intros w; simpl serve.
  - exists [], []. rewrite !app_nil_r. simpl. repeat split; lia.
  - destruct (handle_appends env req w) as (cs1 & aps1 & Hc1 & Ha1 & Hlc & Hla & _).
    destruct (IH (world_of (handle env req w))) as (cs2 & aps2 & Hc2 & Ha2 & Hlc2 & Hla2).
    exists (cs1 ++ cs2), (aps1 ++ aps2).
    rewrite Hc2, Ha2, Hc1, Ha1, <-!app_assoc, !length_app.
    split; [done|]. split; [done|]. simpl List.filter.
    unfold is_post_contact, is_post_apply in *. simpl in *.
    destruct req as [?|?| |?]; simpl in *; split; lia.
Qed.

(** X9. Only documents that satisfy their schema are persisted: if every
    record of the store passes validation (required fields present and
    non-empty, email matching the pattern), the same holds after any sequence
    of requests; in particular for every store built up from the empty one. *)
Theorem store_stays_valid (reqs : list (Env * Request)) (w : World) :
  valid_store w → valid_store (serve reqs w).
Proof.
  revert w. induction reqs as [|[env req] reqs IH]; intros w Hw; [done|].
  simpl serve. apply IH.
  destruct (handle_appends env req w) as (cs & aps & Hc & Ha & _ & _ & Hcs & Haps).
  destruct Hw as [Hwc Hwa]. unfold valid_store. rewrite Hc, Ha.
  split; by apply Forall_app.
Qed.

Lemma store_stays_valid_witness :
  valid_store
    (serve [(Sample.env, PostApply (Sample.application (Some Sample.resume)));
            (Sample.env, PostContact (JsonBody Sample.nameless))]
           empty_world).
Proof. apply store_stays_valid. split; constructor. Defined.

(** X8. A request changes the upload directory at most at one path, the
    one under which the storage engine stores its own upload (a file in the
    [resume] field with the PDF content type, whatever its size): every other
    file is neither written, nor replaced, nor deleted; contact requests,
    listings and application requests whose upload does not reach the storage
    engine change no file. *)
Theorem other_uploads_untouched env (req : Request) w (q : string) :
  (∀ r file, req = PostApply r → ar_file r = Some file → reaches_storage file →
             q ≠ storage_path (storage_filename env file)) →
  uploads (world_of (handle env req w)) !! q = uploads w !! q.
Proof.
  intros Hother.
  handle_cases env req w; unfold world_of; simpl; try done;
    try (destruct Hacc as (Hfield & Hmime & _);
         pose proof (conj Hfield Hmime : reaches_storage file) as Hreach);
    pose proof (Hother _ _ eq_refl Hfile Hreach) as Hq;
    unfold after_unlink; try destruct (unlink_fault env); simpl;
    rewrite ?lookup_delete_ne, ?lookup_insert_ne; done.
Qed.

Lemma other_uploads_untouched_witness :
  uploads (world_of (handle Sample.env
                       (PostApply (Sample.application (Some Sample.huge)))
                       (mkWorld [] [] {[ "uploads/old.pdf" := "%PDF old" ]})))
    !! "uploads/old.pdf" = Some "%PDF old".
Proof.
  rewrite (other_uploads_untouched Sample.env _ _ "uploads/old.pdf").
  - reflexivity.
  - intros r file [= <-] [= <-] _. vm_compute. discriminate.
Defined.

(** X13. When an application request is answered with HTTP 201, its upload
    was accepted, the stored file is served under [/uploads/<name>] with the
    uploaded content, the new record's [resumeUrl] is the request's scheme
    and host followed by that path, and a listing that the store answers
    afterwards contains the record. *)
Theorem accepted_application_served_and_listed env req w resp :
  result_of (apply_route env req w) = inr resp → status resp = 201 →
  ∃ file record,
    ar_file req = Some file ∧ accepted file
    ∧ get_upload (world_of (apply_route env req w)) (storage_filename env file)
      = Served (content file)
    ∧ applications (world_of (apply_route env req w)) = applications w ++ [record]
    ∧ Application.resumeUrl record
      = Some (protocol req +:+ "://" +:+ host req +:+ "/uploads/"
              +:+ storage_filename env file)
    ∧ ∀ env', store_fault env' = None →
        ∃ found,
          result_of (get_applications env' (world_of (apply_route env req w)))
          = inr (mkResponse 200 true None (Some found))
          ∧ record ∈ found.
Proof.
  intros Hres Hstatus.
  destruct (apply_request_cases req)
    as [(file & Hfile & Hacc)|[(file & Hfile & Hreach & Hsize)|Hnot]].
  - revert Hres. rewrite (apply_route_accepted env req file w Hfile Hacc).
    cbv zeta.
    destruct (validate Application.applicationSchema _);
      destruct (store_fault env); unfold result_of, world_of; simpl;
      intros [= <-]; try discriminate Hstatus.
    eexists file, _. split; [done|]. split; [done|].
    split; [|split; [reflexivity|split; [reflexivity|]]].
    + unfold get_upload. simpl. by rewrite lookup_insert_eq.
    + intros env' Hok. rewrite get_applications_run, Hok. simpl.
      eexists. split; [reflexivity|].
      rewrite merge_sort_Permutation. apply elem_of_app. right.
      by apply list_elem_of_singleton.
  - rewrite (apply_route_oversize env req file w Hfile Hreach Hsize) in Hres.
    unfold result_of in Hres. simpl in Hres.
    injection Hres as <-. simpl in Hstatus. lia.
  - destruct (apply_route_unstored env req w Hnot)
      as (code & msg & Hrun & Hcode & _).
    rewrite Hrun in Hres. unfold result_of in Hres. simpl in Hres.
    injection Hres as <-. simpl in Hstatus. lia.
Qed.

Lemma accepted_application_served_and_listed_witness :
  get_upload (world_of (apply_route Sample.env
                          (Sample.application (Some Sample.resume)) empty_world))
             "1700000000000-123456789.pdf"
  = Served "%PDF-1.4 jane".
Proof.
  destruct (accepted_application_served_and_listed Sample.env
              (Sample.application (Some Sample.resume)) empty_world
              (mkResponse 201 true (Some apply_ack) None) eq_refl eq_refl)
    as (file & record & Hfile & _ & Hserved & _).
  injection Hfile as <-. exact Hserved.
Defined.

(** ** Stored names stay inside the upload directory *)

Section Component.
Local Open Scope Z_scope.

Lemma scan_char_component chars code i st :
  chars !! Z.to_nat i = Some code → code ≠ "/"%char →
  scan_component chars i st → scan_component chars (i - 1) (scan_char code i st).
Proof.
  unfold scan_component, scan_char. intros Hc Hcode [Hend Hdot].
  assert (Hhere : ∀ k, k = i → chars !! Z.to_nat k ≠ Some "/"%char).
  { intros k ->. rewrite Hc. congruence. }
  destruct (Z.eqb_spec (end_ st) (-1)) as [He|He]; simpl;
    destruct (Ascii.eqb code "."); simpl;
    repeat (match goal with |- context [Z.eqb ?a ?b] =>
              destruct (Z.eqb_spec a b); simpl end);
    (split;
     [ intros He'; split;
       [ first [done | by apply Hend]
       | intros k Hk; destruct (decide (k = i)) as [Hki|Hki];
         [ by apply Hhere
         | first [exfalso; lia | apply Hend; [done | lia]] ] ]
     | intros Hsd; first [lia | specialize (Hdot Hsd); lia] ]).
Qed.

Lemma extname_scan_component chars rchars suffix i st :
  chars = rev rchars ++ suffix → i = Z.of_nat (length rchars) - 1 →
  scan_component chars i st →
  ∃ i', scan_component chars i' (extname_scan rchars i st).
Proof.
  revert suffix i st.
  induction rchars as [|code rest IH]; intros suffix i st Hchars Hi Hinv; simpl.
  - by exists i.
  - assert (Hcode : chars !! Z.to_nat i = Some code).
    { subst chars i. simpl rev. rewrite <-app_assoc. simpl app.
      replace (Z.to_nat (Z.of_nat (length (code :: rest)) - 1))
        with (length (rev rest)) by (rewrite length_rev; simpl length; lia).
      by apply list_lookup_middle. }
    assert (Hrest : chars = rev rest ++ code :: suffix).
    { subst chars. simpl. by rewrite <-app_assoc. }
    assert (Hi' : i - 1 = Z.of_nat (length rest) - 1).
    { subst i. simpl length. lia. }
    destruct (Ascii.eqb_spec code "/") as [Hslash|Hslash].
    + destruct (matchedSlash st) eqn:Hms; simpl.
      * apply (IH (code :: suffix)); [done..|].
        destruct Hinv as [Hend Hdot]. split.
        -- intros He. destruct (Hend He) as [Hfalse _]. congruence.
        -- intros Hsd. specialize (Hdot Hsd). lia.
      * exists i. destruct Hinv as [Hend Hdot]. split; simpl; [|done].
        intros He. destruct (Hend He) as [_ Hclean]. done.
    + apply (IH (code :: suffix)); [done..|].
      by apply scan_char_component.
Qed.

Lemma extname_chars_no_slash chars :
  Forall (λ c, c ≠ "/"%char) (extname_chars chars).
Proof.
  unfold extname_chars.
  destruct (extname_scan_inv chars (rev chars) [] (Z.of_nat (length chars) - 1)
              (mkScan (-1) 0 (-1) true 0)) as [i1 [_ Hdot]].
  { by rewrite rev_involutive, app_nil_r. }
  { by rewrite length_rev. }
  { split; by left. }
  destruct (extname_scan_component chars (rev chars) []
              (Z.of_nat (length chars) - 1) (mkScan (-1) 0 (-1) true 0))
    as [i2 [Hend Hafter]].
  { by rewrite rev_involutive, app_nil_r. }
  { by rewrite length_rev. }
  { split; simpl; done. }
  set (st := extname_scan _ _ _) in *.
  destruct (Z.eqb_spec (startDot st) (-1)) as [Hsd|Hsd]; simpl; [constructor|].
  match goal with |- context [if ?b then _ else _] => destruct b end;
    [constructor|].
  destruct Hdot as [?|(H0 & _ & Hlt)]; [done|].
  assert (He : end_ st ≠ -1) by lia.
  destruct (Hend He) as [_ Hclean]. specialize (Hafter Hsd).
  apply Forall_lookup. intros j c Hj. unfold slice in Hj.
  apply lookup_take_Some in Hj as [Hj Hlen]. rewrite lookup_drop in Hj.
  intros ->.
  apply (Hclean (startDot st + Z.of_nat j)); [lia|].
  by replace (Z.to_nat (startDot st + Z.of_nat j))
    with (Z.to_nat (startDot st) + j)%nat by lia.
Qed.

End Component.

Section NoSeparator.

Lemma digit_not_slash c : is_digit c = true → Ascii.eqb c "/" = false.
Proof.
  intros Hd. destruct (Ascii.eqb_spec c "/") as [->|]; [discriminate Hd | done].
Qed.

Lemma digits_no_slash s : all_digits s → no_slash s.
Proof.
  unfold all_digits, no_slash. induction (list_ascii_of_string s) as [|c l IH];
    simpl; [done|].
  rewrite !andb_true_iff. intros [Hc Hl].
  by rewrite (digit_not_slash c Hc), IH.
Qed.

Lemma no_slash_app s1 s2 : no_slash s1 → no_slash s2 → no_slash (s1 +:+ s2).
Proof.
  unfold no_slash. rewrite list_of_string_app, forallb_app.
  by intros -> ->.
Qed.

Lemma extname_no_slash s : no_slash (extname s).
Proof.
  unfold no_slash, extname. rewrite list_ascii_of_string_of_list_ascii.
  pose proof (extname_chars_no_slash (list_ascii_of_string s)) as Hall.
  induction Hall as [|c l Hc _ IH]; simpl; [done|].
  rewrite IH, andb_true_r. apply negb_true_iff.
  by destruct (Ascii.eqb_spec c "/").
Qed.

End NoSeparator.

(** X12. Whatever name the client gives the file (paths with separators,
    [..], several dots), the stored file name contains no path separator:
    the file is written directly inside [uploads/], never elsewhere; and the
    stored name is never empty. *)
Theorem stored_name_stays_in_uploads env (file : FilePart) :
  no_slash (storage_filename env file)
  ∧ storage_filename env file ≠ ""
  ∧ storage_path (storage_filename env file)
    = "uploads/" +:+ storage_filename env file.
Proof.
  split; [|split; [|reflexivity]].
  - unfold storage_filename.
    repeat apply no_slash_app;
      try apply digits_no_slash, number_to_string_digits;
      [done | apply extname_no_slash].
  - unfold storage_filename. intros Heq.
    pose proof (number_to_string_nonempty (upload_now env)) as Hne.
    destruct (number_to_string (upload_now env)); [done|discriminate Heq].
Qed.

(** ** What the email pattern lets through *)

Section EmailShape.

Lemma word_not_separator c : is_word c = true → is_separator c = false.
Proof.
  intros Hw. unfold is_separator, is_dot_or_dash, is_at.
  destruct (Ascii.eqb_spec c ".") as [->|]; [discriminate Hw|].
  destruct (Ascii.eqb_spec c "-") as [->|]; [discriminate Hw|].
  destruct (Ascii.eqb_spec c "@") as [->|]; [discriminate Hw|]. done.
Qed.

Lemma word_not_at c : is_word c = true → is_at c = false.
Proof.
  intros Hw. unfold is_at.
  destruct (Ascii.eqb_spec c "@") as [->|]; [discriminate Hw|done].
Qed.

Lemma dot_or_dash_separates c :
  is_dot_or_dash c = true →
  is_word c = false ∧ is_separator c = true ∧ is_at c = false.
Proof.
  unfold is_separator, is_dot_or_dash, is_at. intros H.
  apply orb_true_iff in H as [->%Ascii.eqb_eq | ->%Ascii.eqb_eq]; done.
Qed.

Lemma count_at_app u v : count_at (u ++ v) = (count_at u + count_at v)%nat.
Proof. unfold count_at. by rewrite List.filter_app, length_app. Qed.

(** A piece that can follow a word character and leaves the reader after a
    word character, without any [@]. *)
Lemma star_pieces (X : regex) :
  (∀ x, lang X x →
        (∀ rest, separated true (x ++ rest) = separated true rest)
        ∧ count_at x = 0%nat) →
  ∀ v, lang (Star X) v →
       (∀ rest, separated true (v ++ rest) = separated true rest)
       ∧ count_at v = 0%nat.
Proof.
  intros HX v H. remember (Star X) as r eqn:Hr.
  induction H as [| | | | | |r' u v Hu _ Hv IHv]; try discriminate.
  - done.
  - injection Hr as ->. destruct (HX u Hu) as [Hsep Hcount].
    destruct (IHv eq_refl) as [Hsep' Hcount']. split.
    + intros rest. by rewrite <-app_assoc, Hsep, Hsep'.
    + rewrite count_at_app. lia.
Qed.

Lemma star_words v :
  lang (Star (Class is_word)) v → forallb is_word v = true.
Proof.
  intros H. remember (Star (Class is_word)) as r eqn:Hr.
  induction H as [| | | | | |r' u v Hu _ Hv IHv]; try discriminate; [done|].
  injection Hr as ->. apply lang_class_iff in Hu as (c & -> & Hc).
  simpl. by rewrite Hc, IHv.
Qed.

Lemma plus_words u :
  lang (plus (Class is_word)) u ↔ u ≠ [] ∧ forallb is_word u = true.
Proof.
  unfold plus. rewrite lang_cat_iff. split.
  - intros (u1 & u2 & -> & (c & -> & Hc)%lang_class_iff & Hs%star_words).
    split; [done|]. simpl. by rewrite Hc, Hs.
  - intros [Hne Hw]. destruct u as [|c u]; [done|].
    simpl in Hw. apply andb_true_iff in Hw as [Hc Hu].
    exists [c], u. split; [done|]. split; [by constructor|].
    clear Hne Hc. induction u as [|d u IH]; [constructor|].
    simpl in Hu. apply andb_true_iff in Hu as [Hd Hu].
    change (d :: u) with ([d] ++ u). constructor; [by constructor | by apply IH].
Qed.

(** Reading a non-empty run of word characters leaves the reader after a
    word character, and meets no [@]. *)
Lemma words_run u :
  u ≠ [] → forallb is_word u = true →
  (∀ b rest, separated b (u ++ rest) = separated true rest)
  ∧ count_at u = 0%nat.
Proof.
  intros Hne Hw. split.
  - intros b rest. revert b. induction u as [|c u IH]; intros b; [done|].
    simpl in Hw. apply andb_true_iff in Hw as [Hc Hu]. simpl. rewrite Hc.
    destruct u as [|d u]; [done|]. by apply IH.
  - clear Hne. induction u as [|c u IH]; [done|].
    simpl in Hw. apply andb_true_iff in Hw as [Hc Hu].
    unfold count_at in *. simpl. rewrite (word_not_at c Hc). by apply IH.
Qed.

Lemma words_piece u :
  lang (plus (Class is_word)) u →
  (∀ b rest, separated b (u ++ rest) = separated true rest)
  ∧ count_at u = 0%nat.
Proof. intros [Hne Hw]%plus_words. by apply words_run. Qed.

Lemma separator_word_piece x :
  lang (Cat (opt (Class is_dot_or_dash)) (plus (Class is_word))) x →
  (∀ rest, separated true (x ++ rest) = separated true rest)
  ∧ count_at x = 0%nat.
Proof.
  unfold opt. intros (s & ws & -> & Hs & Hws)%lang_cat_iff.
  destruct (words_piece ws Hws) as [Hsepw Hcountw].
  apply lang_alt_iff in Hs as [Hs|Hs].
  - apply lang_eps_iff in Hs as ->. simpl. split; [|done].
    intros rest. apply Hsepw.
  - apply lang_class_iff in Hs as (c & -> & Hc).
    destruct (dot_or_dash_separates c Hc) as (Hnw & Hsp & Hna). split.
    + intros rest. simpl. rewrite Hnw, Hsp. simpl. apply Hsepw.
    + rewrite count_at_app. unfold count_at at 1. simpl. rewrite Hna.
      simpl. lia.
Qed.

Lemma atoms_piece u :
  lang re_atoms u →
  (∀ b rest, separated b (u ++ rest) = separated true rest)
  ∧ count_at u = 0%nat.
Proof.
  unfold re_atoms. intros (u1 & u2 & -> & H1 & H2)%lang_cat_iff.
  destruct (words_piece u1 H1) as [Hsep1 Hcount1].
  destruct (star_pieces _ separator_word_piece u2 H2) as [Hsep2 Hcount2].
  split.
  - intros b rest. by rewrite <-app_assoc, Hsep1, Hsep2.
  - rewrite count_at_app. lia.
Qed.

Lemma lang_tld_iff u :
  lang re_tld u ↔
  ∃ lab, u = "."%char :: lab ∧ (2 ≤ length lab ≤ 3)%nat
         ∧ forallb is_word lab = true.
Proof.
  split.
  - unfold re_tld, opt. intros H. lang_inv;
      match goal with Hd : is_dot _ = true |- _ =>
        apply Ascii.eqb_eq in Hd; subst end;
      (eexists; split; [reflexivity|]; simpl; split; [lia|]);
      repeat match goal with Hw : is_word _ = true |- _ =>
        rewrite Hw; clear Hw end; done.
  - intros (lab & -> & Hlen & Hw). unfold re_tld, opt.
    destruct lab as [|a [|b [|c [|d lab]]]]; simpl in Hlen; try lia;
      simpl in Hw; rewrite ?andb_true_iff in Hw.
    + destruct Hw as (Ha & Hb & _).
      apply (lang_cat _ _ ["."%char] [a; b]); [by constructor|].
      apply (lang_cat _ _ [a] [b]); [by constructor|].
      apply (lang_cat _ _ [b] []); [by constructor|].
      apply lang_alt_l. constructor.
    + destruct Hw as (Ha & Hb & Hc & _).
      apply (lang_cat _ _ ["."%char] [a; b; c]); [by constructor|].
      apply (lang_cat _ _ [a] [b; c]); [by constructor|].
      apply (lang_cat _ _ [b] [c]); [by constructor|].
      apply lang_alt_r. by constructor.
Qed.

Lemma tld_piece u :
  lang re_tld u →
  (∀ rest, separated true (u ++ rest) = separated true rest)
  ∧ count_at u = 0%nat.
Proof.
  intros (lab & -> & Hlen & Hw)%lang_tld_iff.
  assert (Hne : lab ≠ []) by (intros ->; simpl in Hlen; lia).
  destruct (words_run lab Hne Hw) as [Hsep Hcount]. split.
  - intros rest. simpl. apply Hsep.
  - change ("."%char :: lab) with (["."%char] ++ lab).
    rewrite count_at_app, Hcount. reflexivity.
Qed.

End EmailShape.

(** X10. Every email value the pattern accepts consists of word characters
    and single separators only: it starts and ends with a word character,
    every [.], [-] and [@] stands directly after a word character (so no two
    of them are adjacent), nothing else occurs in it, and it has exactly one
    [@]. *)
Theorem accepted_email_shape (s : string) :
  regex_test email_re s = true →
  separated false (list_ascii_of_string s) = true
  ∧ count_at (list_ascii_of_string s) = 1%nat
  ∧ Forall (λ c, is_word c = true ∨ is_separator c = true)
           (list_ascii_of_string s)
  ∧ ∀ pre a b post, list_ascii_of_string s = pre ++ a :: b :: post →
                    is_word a = true ∨ is_word b = true.
Proof.
  unfold regex_test. rewrite matches_spec. intros H.
  assert (Hsep : separated false (list_ascii_of_string s) = true
                 ∧ count_at (list_ascii_of_string s) = 1%nat).
  { revert H. generalize (list_ascii_of_string s) as w. intros w.
    unfold email_re, plus.
    intros (u1 & r1 & -> & Hu1 & (at_ & r2 & -> & Hat & (u2 & r3 & -> & Hu2
            & (t & ts & -> & Ht & Hts)%lang_cat_iff)%lang_cat_iff)%lang_cat_iff)
           %lang_cat_iff.
    apply lang_class_iff in Hat as (c & -> & Hc).
    destruct (atoms_piece u1 Hu1) as [Hs1 Hc1].
    destruct (atoms_piece u2 Hu2) as [Hs2 Hc2].
    destruct (tld_piece t Ht) as [Hs3 Hc3].
    destruct (star_pieces re_tld tld_piece ts Hts) as [Hs4 Hc4].
    assert (Hcw : is_word c = false).
    { apply Ascii.eqb_eq in Hc. by subst c. }
    split.
    - rewrite Hs1. simpl. rewrite Hcw. unfold is_separator. rewrite Hc.
      rewrite orb_true_r. simpl. rewrite Hs2, Hs3.
      rewrite <-(app_nil_r ts), Hs4. reflexivity.
    - rewrite !count_at_app, Hc1, Hc2, Hc3, Hc4. unfold count_at. simpl.
      by rewrite Hc. }
  destruct Hsep as [Hsep Hcount]. split; [done|]. split; [done|].
  clear H Hcount. revert Hsep.
  generalize (list_ascii_of_string s) as w, false as b. intros w.
  induction w as [|c w IH]; intros b Hsep.
  - split; [constructor|]. intros [|? ?] ? ? ? [=].
  - simpl in Hsep. destruct (is_word c) eqn:Hc.
    + destruct (IH true Hsep) as [Hall Hadj]. split; [constructor; auto|].
      intros [|x pre] a b' post Heq; simpl in Heq; injection Heq as -> Heq.
      * by left.
      * by apply (Hadj pre a b' post).
    + apply andb_true_iff in Hsep as [Hsb Hrest].
      apply andb_true_iff in Hsb as [Hs Hb].
      destruct (IH false Hrest) as [Hall Hadj]. split; [constructor; auto|].
      intros [|x pre] a b' post Heq; simpl in Heq; injection Heq as -> Heq.
      * right. subst w. simpl in Hrest.
        destruct (is_word b'); [done|].
        by rewrite andb_false_r in Hrest.
      * by apply (Hadj pre a b' post).
Qed.

Lemma accepted_email_shape_witness :
  separated false (list_ascii_of_string "jane.doe-smith@mail.example.co.uk")
  = true
  ∧ count_at (list_ascii_of_string "jane.doe-smith@mail.example.co.uk") = 1%nat.
Proof.
  destruct (accepted_email_shape "jane.doe-smith@mail.example.co.uk")
    as (Hsep & Hcount & _).
  - vm_compute. reflexivity.
  - split; [exact Hsep | exact Hcount].
Defined.

(** X11. An address made of a non-empty run of word characters, an [@], a
    non-empty run of word characters, a dot and two or three word characters
    passes the email rule of both schemas. *)
Theorem simple_email_accepted (user domain tld : list ascii)
    (c : Contact.t) (a : Application.t) :
  user ≠ [] → forallb is_word user = true →
  domain ≠ [] → forallb is_word domain = true →
  (2 ≤ length tld ≤ 3)%nat → forallb is_word tld = true →
  let s := string_of_list_ascii (user ++ "@"%char :: domain ++ "."%char :: tld) in
  Contact.email c = Some s → Application.email a = Some s →
  regex_test email_re s = true
  ∧ validate_path Contact.email_path c = None
  ∧ validate_path Application.email_path a = None.
Proof.
  intros Hu Huw Hd Hdw Hlen Htw s Hc Ha.
  assert (Hre : regex_test email_re s = true).
  { unfold regex_test, s. rewrite list_ascii_of_string_of_list_ascii.
    apply matches_spec. unfold email_re.
    assert (Hatoms : ∀ w, w ≠ [] → forallb is_word w = true → lang re_atoms w).
    { intros w Hne Hw. unfold re_atoms. rewrite <-(app_nil_r w).
      constructor; [by apply plus_words | constructor]. }
    constructor; [by apply Hatoms|].
    change ("@"%char :: domain ++ "."%char :: tld)
      with (["@"%char] ++ domain ++ "."%char :: tld).
    constructor; [by constructor|].
    constructor; [by apply Hatoms|].
    unfold plus. rewrite <-(app_nil_r ("."%char :: tld)).
    constructor; [|constructor]. apply lang_tld_iff. eauto. }
  assert (Hne : String.eqb s "" = false).
  { apply String.eqb_neq. intros Hs. rewrite Hs in Hre. discriminate Hre. }
  split; [done|].
  unfold validate_path. simpl. rewrite Hc, Ha. simpl. by rewrite Hne, Hre.
Qed.

Lemma simple_email_accepted_witness :
  regex_test email_re "jane@x.com" = true.
Proof.
  refine (proj1 (simple_email_accepted
                   (list_ascii_of_string "jane") (list_ascii_of_string "x")
                   (list_ascii_of_string "com")
                   (Contact.mk None (Some "jane@x.com") None 0)
                   (Application.mk None (Some "jane@x.com") None None None 0)
                   _ _ _ _ _ _ eq_refl eq_refl));
    try discriminate; try reflexivity.
  simpl. lia.
Defined.

(** ** Messages of failed requests *)

Section Messages.

Lemma join_nonempty sep x xs : x ≠ "" → join sep (x :: xs) ≠ "".
Proof.
  intros Hx. destruct xs as [|y xs]; simpl; [done|].
  destruct x; [done | discriminate].
Qed.

Lemma contact_messages_nonempty doc field msg :
  In (field, msg) (validate Contact.contactSchema doc) → msg ≠ "".
Proof.
  intros (q & Hq & _ & Hmsg)%validate_In.
  unfold Contact.contactSchema in Hq. simpl in Hq.
  destruct Hq as [<-|[<-|[<-|[]]]]; unfold validate_path in Hmsg;
    simpl in Hmsg;
    repeat match goal with
           | H : context [if ?b then _ else _] |- _ => destruct b
           end;
    by simplify_eq.
Qed.

Lemma application_messages_nonempty doc field msg :
  In (field, msg) (validate Application.applicationSchema doc) → msg ≠ "".
Proof.
  intros (q & Hq & _ & Hmsg)%validate_In.
  unfold Application.applicationSchema in Hq. simpl in Hq.
  destruct Hq as [<-|[<-|[<-|[<-|[<-|[]]]]]]; unfold validate_path in Hmsg;
    simpl in Hmsg;
    repeat match goal with
           | H : context [if ?b then _ else _] |- _ => destruct b
           end;
    by simplify_eq.
Qed.

End Messages.

(** X15. Every response with [success = false] carries a message that is
    not empty, whichever route or middleware branch produced it; a response
    with [success = true] carries the fixed acknowledgement of its route, or
    the records and no message. *)
Theorem failures_carry_message env (req : Request) w resp :
  result_of (handle env req w) = inr resp →
  (success resp = false → ∃ msg, message resp = Some msg ∧ msg ≠ "")
  ∧ (success resp = true →
       message resp = Some contact_ack ∨ message resp = Some apply_ack
       ∨ (message resp = None ∧ is_Some (data resp))).
Proof.
  handle_cases env req w; unfold result_of; simpl; intros [= <-]; simpl;
    (split; [intros Hs; try discriminate Hs | by (discriminate || auto)]);
    try (eexists; split; [reflexivity|]; done).
  - eexists; split; [reflexivity|].
    apply join_nonempty.
    apply (contact_messages_nonempty (newContact env body) (fst p)).
    rewrite Hvalid. left. by destruct p.
  - eexists; split; [reflexivity|].
    apply join_nonempty.
    apply (contact_messages_nonempty (newContact env body) (fst p)).
    rewrite Hvalid. left. by destruct p.
  - eexists; split; [reflexivity|].
    apply join_nonempty.
    eapply (application_messages_nonempty _ (fst p)).
    rewrite Hvalid. left. by destruct p.
  - eexists; split; [reflexivity|].
    apply join_nonempty.
    eapply (application_messages_nonempty _ (fst p)).
    rewrite Hvalid. left. by destruct p.
Qed.

Lemma failures_carry_message_witness :
  ∃ msg, Some "Only PDF files are allowed!" = Some msg ∧ msg ≠ "".
Proof.
  refine (proj1 (failures_carry_message Sample.env
                   (PostApply (Sample.application (Some Sample.notes)))
                   empty_world
                   (mkResponse 500 false (Some "Only PDF files are allowed!") None)
                   eq_refl) eq_refl).
Defined.

(** ** Listings do not depend on insertion order *)

Section ListingOrder.

Lemma newest_first_timestamps (l : list Application.t) :
  StronglySorted (flip N.le)
    (Application.createdAt <$> merge_sort newer_first l).
Proof.
  apply (StronglySorted_fmap _ newer_first); [by intros a b|].
  apply StronglySorted_merge_sort.
  - intros a b c. unfold newer_first. lia.
  - intros a b. unfold newer_first. lia.
Qed.

Lemma equal_images_in_NoDup {A B} (f : A → B) (l : list A) x y :
  NoDup (f <$> l) → x ∈ l → y ∈ l → f x = f y → x = y.
Proof.
  induction l as [|a l IH]; simpl; intros Hnd Hx Hy Heq; [by inv Hx|].
  apply NoDup_cons in Hnd as [Hfresh Hnd].
  apply elem_of_cons in Hx as [->|Hx]; apply elem_of_cons in Hy as [->|Hy].
  - done.
  - destruct Hfresh. rewrite Heq. by apply list_elem_of_fmap_2.
  - destruct Hfresh. rewrite <-Heq. by apply list_elem_of_fmap_2.
  - by apply IH.
Qed.

End ListingOrder.

(** X14. The listing depends on the persisted records only, not on the
    order in which they were inserted: two stores holding the same
    Application records give listings with the same sequence of [createdAt]
    values, and the very same listing when no two records share their
    [createdAt]. *)
Theorem listing_order_independent env (w1 w2 : World) :
  store_fault env = None → applications w1 ≡ₚ applications w2 →
  ∃ found1 found2,
    result_of (get_applications env w1)
    = inr (mkResponse 200 true None (Some found1))
    ∧ result_of (get_applications env w2)
      = inr (mkResponse 200 true None (Some found2))
    ∧ Application.createdAt <$> found1 = Application.createdAt <$> found2
    ∧ (NoDup (Application.createdAt <$> applications w1) → found1 = found2).
Proof.
  intros Hok Hperm.
  exists (merge_sort newer_first (applications w1)),
         (merge_sort newer_first (applications w2)).
  rewrite !get_applications_run, Hok. unfold result_of. simpl.
  split; [done|]. split; [done|].
  assert (Hfound : merge_sort newer_first (applications w1)
                   ≡ₚ merge_sort newer_first (applications w2)).
  { by rewrite !merge_sort_Permutation. }
  split.
  - apply (StronglySorted_unique_strong (flip N.le)).
    + intros x y _ _. unfold flip. lia.
    + apply newest_first_timestamps.
    + apply newest_first_timestamps.
    + by rewrite Hfound.
  - intros Hnd. apply (StronglySorted_unique_strong newer_first).
    + intros x y Hx Hy Hxy Hyx. unfold newer_first in *.
      apply (equal_images_in_NoDup Application.createdAt (applications w1));
        [done| | |lia].
      * by rewrite <-(merge_sort_Permutation newer_first).
      * by rewrite Hperm, <-(merge_sort_Permutation newer_first).
    + apply StronglySorted_merge_sort.
      * intros a b c. unfold newer_first. lia.
      * intros a b. unfold newer_first. lia.
    + apply StronglySorted_merge_sort.
      * intros a b c. unfold newer_first. lia.
      * intros a b. unfold newer_first. lia.
    + done.
Qed.

Lemma listing_order_independent_witness :
  ∃ found1 found2,
    result_of (get_applications Sample.env
                 (mkWorld [] [Sample.jane_record; Sample.joe_record] ∅))
    = inr (mkResponse 200 true None (Some found1))
    ∧ result_of (get_applications Sample.env
                   (mkWorld [] [Sample.joe_record; Sample.jane_record] ∅))
      = inr (mkResponse 200 true None (Some found2))
    ∧ Application.createdAt <$> found1 = Application.createdAt <$> found2.
Proof.
  destruct (listing_order_independent Sample.env
              (mkWorld [] [Sample.jane_record; Sample.joe_record] ∅)
              (mkWorld [] [Sample.joe_record; Sample.jane_record] ∅)
              eq_refl) as (f1 & f2 & H1 & H2 & Hts & _).
  - simpl. apply Permutation_swap.
  - exists f1, f2. split; [exact H1|]. split; [exact H2 | exact Hts].
Defined.

(** ** Stored resumes stay on disk *)

Section Persistence.
Implicit Types (env : Env) (w : World).

Lemma serve_app (reqs1 reqs2 : list (Env * Request)) w :
  serve (reqs1 ++ reqs2) w = serve reqs2 (serve reqs1 w).
Proof.
  revert w. induction reqs1 as [|[env req] reqs1 IH]; intros w; [done|].
  simpl. apply IH.
Qed.

Lemma uploads_frame_step env (req : Request) w (q : string) :
  (∀ r file, req = PostApply r → ar_file r = Some file → reaches_storage file →
             q ≠ storage_path (storage_filename env file)) →
  uploads (world_of (handle env req w)) !! q = uploads w !! q.
Proof.
  intros Hother.
  handle_cases env req w; unfold world_of; simpl; try done;
    try (destruct Hacc as (Hfield & Hmime & _);
         pose proof (conj Hfield Hmime : reaches_storage file) as Hreach);
    pose proof (Hother _ _ eq_refl Hfile Hreach) as Hq;
    unfold after_unlink; try destruct (unlink_fault env); simpl;
    rewrite ?lookup_delete_ne, ?lookup_insert_ne; done.
Qed.

Lemma uploads_frame (reqs : list (Env * Request)) w (q : string) :
  (∀ env r file, In (env, PostApply r) reqs → ar_file r = Some file →
                 reaches_storage file →
                 q ≠ storage_path (storage_filename env file)) →
  uploads (serve reqs w) !! q = uploads w !! q.
Proof.
  revert w. induction reqs as [|[env req] reqs IH]; intros w Hother; [done|].
  simpl serve. rewrite IH.
  - apply uploads_frame_step. intros r file -> Hfile Hreach.
    apply (Hother env r file); [by left|done..].
  - intros env' r file Hin. apply Hother. by right.
Qed.

End Persistence.

(** X16. The file of an application that was answered with HTTP 201 stays
    on disk with its content through all later requests, whatever they are
    and however they end, provided none of the later uploads that reach the
    storage engine (accepted or oversize) is stored under the same name. *)
Theorem accepted_resume_persists
    (before after : list (Env * Request)) env (r : ApplyRequest)
    (file : FilePart) (w : World) resp :
  ar_file r = Some file →
  result_of (apply_route env r (serve before w)) = inr resp →
  status resp = 201 →
  (∀ env' r' file', In (env', PostApply r') after → ar_file r' = Some file' →
                    reaches_storage file' →
                    storage_filename env' file' ≠ storage_filename env file) →
  uploads (serve (before ++ (env, PostApply r) :: after) w)
    !! storage_path (storage_filename env file) = Some (content file).
Proof.
  intros Hfile Hres Hstatus Hlater.
  rewrite serve_app. simpl serve. rewrite uploads_frame.
  - destruct (apply_request_cases r)
      as [(file' & Hfile' & Hacc)|[(file' & Hfile' & Hreach & Hsize)|Hnot]].
    + rewrite Hfile in Hfile'. injection Hfile' as <-. revert Hres.
      rewrite (apply_route_accepted env r file _ Hfile Hacc). cbv zeta.
      destruct (validate Application.applicationSchema _);
        destruct (store_fault env); unfold result_of, world_of; simpl;
        intros [= <-]; try discriminate Hstatus.
      apply lookup_insert_eq.
    + rewrite (apply_route_oversize env r file' _ Hfile' Hreach Hsize) in Hres.
      unfold result_of in Hres. simpl in Hres.
      injection Hres as <-. simpl in Hstatus. lia.
    + destruct (apply_route_unstored env r (serve before w) Hnot)
        as (code & msg & Hrun & Hcode & _).
      rewrite Hrun in Hres. unfold result_of in Hres. simpl in Hres.
      injection Hres as <-. simpl in Hstatus. lia.
  - intros env' r' file' Hin Hfile' Hreach Heq.
    apply (Hlater env' r' file' Hin Hfile' Hreach).
    unfold storage_path in Heq. by apply (inj (String.app "uploads/")) in Heq.
Qed.

Lemma accepted_resume_persists_witness :
  uploads (serve [(Sample.env, PostApply (Sample.application (Some Sample.resume)));
                  (Sample.later_env_store_down,
                   PostApply (Sample.application (Some Sample.huge)))]
                 empty_world)
    !! "uploads/1700000000000-123456789.pdf" = Some "%PDF-1.4 jane".
Proof.
  refine (accepted_resume_persists []
            [(Sample.later_env_store_down,
              PostApply (Sample.application (Some Sample.huge)))]
            Sample.env (Sample.application (Some Sample.resume)) Sample.resume
            empty_world (mkResponse 201 true (Some apply_ack) None)
            eq_refl eq_refl eq_refl _).
  intros env' r' file' [[= <- <-]|[]] [= <-] _. vm_compute. discriminate.
Defined.
